(** * dataship: the streaming group-by engine of [src/index.js]

    A shallow embedding of [dataship.frame.groupby], the reducers of
    [dataship.reduce], [dataship.util.insert], [binarySearch],
    [dataship.frame.groupers.interval] and [dataship.frame.column], and of
    the helpers around them: [reduce], [map] and [filter] on objects,
    [range], [dataship.num.equal], [dataship.num.argmax], [dataship.frame]
    and [dataship.frame.widen].

    Conventions of the embedding.
    - A JavaScript number is an exact rational ([Qc]); [NaN] is a value of
      its own.  Rounding, overflow, infinities and the sign of zero are not
      represented.
    - The two conversions the host performs between numbers and strings
      ([Number::toString] and [StringToNumber]) are parameters of the
      development: every result holds whatever they are.
    - An object used as a dictionary is modelled by its own properties, in
      the order the language enumerates them.  Property names inherited from
      [Object.prototype] are not represented. *)

From Stdlib Require Import QArith Qcanon Qround ZArith Sorted Permutation DecimalString.
From stdpp Require Import gmap strings list fin_maps sorting.
From Equations Require Import Equations.

(** ** Values *)

(** The scalars a row can hold and a reducer can return. *)
Inductive value : Type :=
  | VUndef
  | VNaN
  | VNum (q : Qc)
  | VStr (s : string).

#[global] Instance Qc_eq_decision : EqDecision Qc := Qc_eq_dec.

#[global] Instance value_eq_dec : EqDecision value.
Proof. solve_decision. Defined.

#[global] Instance value_inhabited : Inhabited value := populate VUndef.

(** The order of the numbers, for the lemmas on sorted lists. *)
#[global] Instance Qcle_trans_inst : Transitive Qcle.
Proof. intros x y z. apply Qcle_trans. Qed.

#[global] Instance Qcle_antisym_inst : AntiSymm (=) Qcle.
Proof. intros x y. apply Qcle_antisym. Qed.

(** The number written as the integer literal [z]. *)
Definition num_of_Z (z : Z) : Qc := Q2Qc (inject_Z z).
Definition num_of_nat (n : nat) : Qc := num_of_Z (Z.of_nat n).
Definition VInt (z : Z) : value := VNum (num_of_Z z).

Definition Qcltb (x y : Qc) : bool :=
  match Qccompare x y with Lt => true | _ => false end.

(** [v === void(0)] *)
Definition is_undefined (v : value) : bool :=
  match v with VUndef => true | _ => false end.

(** [v != null] and [v == null]: the universe has no [null], so only
    [undefined] is nullish. *)
Definition not_nullish (v : value) : bool := negb (is_undefined v).

(** ToBoolean *)
Definition truthy (v : value) : bool :=
  match v with
  | VUndef | VNaN => false
  | VNum q => if decide (q = Q2Qc 0) then false else true
  | VStr s => if decide (s = EmptyString) then false else true
  end.

(** [typeof(v) === "string"] *)
Definition is_string (v : value) : bool :=
  match v with VStr _ => true | _ => false end.

(** What a call can end in other than a value. *)
Inductive error : Type :=
  | TypeError                  (* raised by the host: a call of a non-function,
                                  a property read on [undefined] *)
  | Error (message : string)   (* [throw new Error(message)] *)
  | Unsupported.               (* a use the embedding does not cover *)

Inductive outcome (A : Type) : Type :=
  | Ret (a : A)
  | Throw (e : error).
Arguments Ret {A} a.
Arguments Throw {A} e.

#[global] Instance outcome_bind : MBind outcome := fun A B k m =>
  match m with
  | Ret a => k a
  | Throw e => Throw e
  end.

(** ** A host for the examples *)

(** The fractional digits of [r / den], at most [fuel] of them. *)
Fixpoint fraction_digits (fuel : nat) (r den : Z) : string :=
  match fuel with
  | 0 => EmptyString
  | S fuel' =>
      if decide (r = 0)%Z then EmptyString
      else NilZero.string_of_int (Z.to_int (10 * r / den)) +:+
           fraction_digits fuel' ((10 * r) mod den)%Z den
  end.

(** Decimal notation: the integers as [Number::toString] prints them below
    [10^21], and decimal fractions of a few digits likewise. *)
Definition show_number (q : Qc) : string :=
  let n := Qnum q in
  let den := Z.pos (Qden q) in
  let a := Z.abs n in
  (if decide (n < 0)%Z then "-" else "") +:+
  NilZero.string_of_int (Z.to_int (a / den)) +:+
  (if decide (a mod den = 0)%Z then ""
   else "." +:+ fraction_digits 17 (a mod den) den).

(** Decimal integer literals, and the empty string as [0]; anything else is
    read as [NaN]. *)
Definition read_number (s : string) : option Qc :=
  if decide (s = EmptyString) then Some (num_of_Z 0)
  else (fun i => num_of_Z (Z.of_int i)) <$> NilZero.int_of_string s.

(** The number written [n / d] for a positive [d], such as [89 / 10] for [8.9]. *)
Definition VDec (n d : Z) : value := VNum (Q2Qc (Qmake n (Z.to_pos d))).

(** ** Objects used as dictionaries *)

(** A row of a dataset: field name to scalar. *)
Abbreviation row := (gmap string value).

(** [row[field]] *)
Definition row_get (r : row) (field : string) : value := default VUndef (r !! field).

(** The value of a decimal digit. *)
Definition digit_of (a : Ascii.ascii) : option N :=
  let n := Ascii.N_of_ascii a in
  if ((48 <=? n) && (n <=? 57))%N then Some (n - 48)%N else None.

Fixpoint digits_value (s : string) (acc : N) : option N :=
  match s with
  | EmptyString => Some acc
  | String a s' =>
      match digit_of a with
      | Some dg => digits_value s' (10 * acc + dg)%N
      | None => None
      end
  end.

(** A property name is an array index when it is the canonical decimal
    form of an integer below [2^32 - 1]. *)
Definition array_index (s : string) : option N :=
  match s with
  | EmptyString => None
  | String a s' =>
      if decide (Ascii.N_of_ascii a = 48%N) then
        (if decide (s' = EmptyString) then Some 0%N else None)
      else
        match digits_value s 0 with
        | Some n => if (n <? 2 ^ 32 - 1)%N then Some n else None
        | None => None
        end
  end.

Definition is_index (s : string) : bool :=
  match array_index s with Some _ => true | None => false end.

(** An object built by assignments [o[k] = v], as the list of its own
    properties in creation order. *)
Abbreviation obj := (list (string * value)).

(** [o[k]] *)
Fixpoint obj_get (o : obj) (k : string) : value :=
  match o with
  | [] => VUndef
  | (k', v) :: o' => if decide (k' = k) then v else obj_get o' k
  end.

(** [o[k] = v]: an existing property keeps its place, a new one comes last. *)
Fixpoint obj_set (o : obj) (k : string) (v : value) : obj :=
  match o with
  | [] => [(k, v)]
  | (k', v') :: o' =>
      if decide (k' = k) then (k', v) :: o' else (k', v') :: obj_set o' k v
  end.

(** The keys in creation order. *)
Definition created_keys (o : obj) : list string := o.*1.

Definition index_le (a b : N * string) : Prop := (a.1 <= b.1)%N.
#[global] Instance index_le_dec : RelDecision index_le.
Proof. intros a b; unfold index_le; apply _. Defined.

(** The order in which [for (k in o)] and [Object.keys(o)] enumerate the
    properties: array indices first, in ascending numeric order, then the
    other names in creation order. *)
Definition own_keys (o : obj) : list string :=
  (merge_sort index_le
     (omap (fun k => (fun n => (n, k)) <$> array_index k) (created_keys o))).*2
  ++ filter (fun k => is_index k = false) (created_keys o).

(** The auxiliary state object of a stateful reducer, as found in the
    [state] property of a reducer function or in [state[id]]. *)
Inductive aux : Type :=
  | AuxUndef                                        (* [undefined] *)
  | AuxEmpty                                        (* [{}] *)
  | AuxMode (values : gmap string nat) (argmax : value)
                                                    (* [{values: {..}, argmax: ..}] *)
  | AuxMedian (values : list value).                (* [{values: [..]}] *)

(** A grouper or selector argument. *)
Inductive arg : Type :=
  | AVal (v : value)          (* a primitive; [undefined] when omitted *)
  | AFun (f : row -> value)   (* a function of a row *)
  | AObj.                     (* any other object: truthy, not callable *)

(** A reducer argument. *)
Inductive reducer : Type :=
  | Count | Sum | Mean | Min | Max | Mode | Median
  | UserDefined (f : value -> value -> nat -> value).

(** What a call of [groupby] can reach besides its own locals: the caller's
    dataset, [dataship.reduce.mode.state], and the [state] property of the
    reducer it was given when that is not [mode]. *)
Record store : Type := Store {
  s_dataset : list row;
  s_mode_state : aux;
  s_reducer_state : aux
}.

(** One invocation of the reducer by [groupby]: key, [agg], [val], [n]. *)
Definition call_record : Type := string * value * value * nat.

(** The locals of [groupby] during the pass, with the store and the log of
    reducer invocations. *)
Record pass : Type := Pass {
  p_store : store;
  p_result : obj;
  p_count : gmap string nat;
  p_state : gmap string aux;
  p_calls : list call_record
}.

(** ** Example data *)

(** The three movies of the documentation of [groupby]. *)
Definition fight_club : row :=
  {[ "Title" := VStr "Fight Club"; "Year" := VInt 1999; "Rating" := VDec 89 10 ]}.
Definition the_matrix : row :=
  {[ "Title" := VStr "The Matrix"; "Year" := VInt 1999; "Rating" := VDec 87 10 ]}.
Definition stranger_than_fiction : row :=
  {[ "Title" := VStr "Stranger Than Fiction"; "Year" := VInt 2006;
     "Rating" := VDec 76 10 ]}.
Definition movies : list row := [fight_club; the_matrix; stranger_than_fiction].

(** A row with a group [k] and a number [v]. *)
Definition reading (k : string) (v : Z) : row := {[ "k" := VStr k; "v" := VInt v ]}.

(** Two groups whose rows alternate. *)
Definition interleaved : list row :=
  [ reading "A" 5; reading "B" 10; reading "A" 1; reading "B" 20; reading "A" 3 ].


(** A store in which no reducer has run yet. *)
Definition fresh_store (dataset : list row) : store := Store dataset AuxUndef AuxUndef.

Section Engine.

(** [Number::toString] on finite numbers. *)
Variable number_to_string : Qc -> string.
(** [StringToNumber]; [None] stands for [NaN]. *)
Variable string_to_number : string -> option Qc.

(** *** Operators *)

(** ToString; also the property name a value is used as. *)
Definition to_string (v : value) : string :=
  match v with
  | VUndef => "undefined"
  | VNaN => "NaN"
  | VNum q => number_to_string q
  | VStr s => s
  end.

(** ToNumber *)
Definition to_number (v : value) : option Qc :=
  match v with
  | VUndef | VNaN => None
  | VNum q => Some q
  | VStr s => string_to_number s
  end.

(** [a + b] *)
Definition js_add (a b : value) : value :=
  if is_string a || is_string b then VStr (to_string a +:+ to_string b)
  else match to_number a, to_number b with
       | Some x, Some y => VNum (x + y)
       | _, _ => VNaN
       end.

(** [a - b] *)
Definition js_sub (a b : value) : value :=
  match to_number a, to_number b with
  | Some x, Some y => VNum (x - y)
  | _, _ => VNaN
  end.

(** [a / k] for a positive integer [k]: the source divides by [2] and by
    [n + 1] only. *)
Definition js_div_pos (a : value) (k : positive) : value :=
  match to_number a with
  | Some x => VNum (x / num_of_Z (Z.pos k))
  | None => VNaN
  end.

(** [a < b] *)
Definition js_lt (a b : value) : bool :=
  match a, b with
  | VStr s, VStr t => String.ltb s t
  | _, _ =>
      match to_number a, to_number b with
      | Some x, Some y => Qcltb x y
      | _, _ => false
      end
  end.

(** [a > b] *)
Definition js_gt (a b : value) : bool := js_lt b a.

(** [var d = function(a, b){ return a > b ? 1 : a < b ? -1 : 0;};] *)
Definition d (a b : value) : Z :=
  if js_gt a b then 1%Z else if js_lt a b then (-1)%Z else 0%Z.

(** *** Ordered insertion: [binarySearch] and [dataship.util.insert] *)

(** [arr[k]]: a read outside the array gives [undefined]. *)
Definition arr_get (arr : list value) (k : Z) : value :=
  if decide (0 <= k)%Z then default VUndef (arr !! Z.to_nat k) else VUndef.

(** The [while (m <= n)] loop of [binarySearch].  On the indices of an
    array [(n + m) >> 1] is the floor of the half. *)
Equations? bs_loop (arr : list value) (el : value) (comparator : value -> value -> Z)
    (m n : Z) : Z by wf (Z.to_nat (n - m + 1)) lt :=
  bs_loop arr el comparator m n with decide (m <= n)%Z => {
    | right _ => m
    | left _ =>
        let k := Z.shiftr (n + m) 1 in
        let c := comparator el (arr_get arr k) in
        if decide (c > 0)%Z then bs_loop arr el comparator (k + 1)%Z n
        else if decide (c < 0)%Z then bs_loop arr el comparator m (k - 1)%Z
        else k }.
Proof.
  all: subst k; rewrite Z.shiftr_div_pow2 by lia; change (2 ^ 1)%Z with 2%Z;
    pose proof (Z.div_mod (n + m) 2 ltac:(lia));
    pose proof (Z.mod_pos_bound (n + m) 2 ltac:(lia)); lia.
Qed.

Definition binarySearch (arr : list value) (el : value)
    (comparator : value -> value -> Z) : Z :=
  bs_loop arr el comparator 0%Z (Z.of_nat (length arr) - 1)%Z.

(** [arr.splice(index, 0, el)]: a negative start counts from the end, and
    the start is clamped to the array. *)
Definition splice_in (arr : list value) (index : Z) (el : value) : list value :=
  let len := Z.of_nat (length arr) in
  let start :=
    if decide (index < 0)%Z then Z.max (len + index) 0 else Z.min index len in
  take (Z.to_nat start) arr ++ el :: drop (Z.to_nat start) arr.

Definition insert (arr : list value) (el : value) : list value :=
  let index := binarySearch arr el d in
  splice_in arr index el.

(** *** The reducers of [dataship.reduce] *)

(** [function(agg, val, n){ return n + 1; }] *)
Definition count (agg val : value) (n : nat) : value := VNum (num_of_nat (n + 1)).

(** [function(agg, val){ return agg + val; }] *)
Definition sum (agg val : value) : value := js_add agg val.

(** [function(agg, val, n){ return (agg + ((val - agg)/(n + 1))); }] *)
Definition mean (agg val : value) (n : nat) : value :=
  js_add agg (js_div_pos (js_sub val agg) (Pos.of_succ_nat n)).

(** [function(agg, val) { return agg > val ? agg : val; }] *)
Definition max (agg val : value) : value := if js_gt agg val then agg else val.

(** [function(agg, val) { return agg < val ? agg : val; }] *)
Definition min (agg val : value) : value := if js_lt agg val then agg else val.

(** [self.values[val] > self.values[agg]] on the frequency table: a
    missing entry reads [undefined], and the comparison is then false. *)
Definition freq_gt (values : gmap string nat) (val agg : value) : bool :=
  match values !! to_string val, values !! to_string agg with
  | Some a, Some b => b <? a
  | _, _ => false
  end.

(** [dataship.reduce.mode]; [ms] is [dataship.reduce.mode.state].  A state
    whose [values] is an array, as [median] leaves it, is not covered. *)
Definition mode (ms : aux) (agg val : value) (n : nat) : outcome (value * aux) :=
  if decide (n = 0) then Ret (val, ms)
  else
    let self :=
      if decide (n = 1) then AuxMode {[ to_string agg := 1 ]} agg else ms in
    match self with
    | AuxMode values argmax =>
        let values' :=
          match values !! to_string val with
          | Some c => <[ to_string val := c + 1 ]> values
          | None => <[ to_string val := 1 ]> values
          end in
        let argmax' := if freq_gt values' val agg then val else argmax in
        Ret (argmax', AuxMode values' argmax')
    | AuxUndef | AuxEmpty => Throw TypeError
    | AuxMedian _ => Throw Unsupported
    end.

(** [dataship.reduce.median]; [ms] is [dataship.reduce.mode.state], the
    property the source reads and writes. *)
Definition median (ms : aux) (agg val : value) (n : nat) : outcome (value * aux) :=
  if decide (n = 0) then Ret (val, ms)
  else
    let self := if decide (n = 1) then AuxMedian [agg] else ms in
    match self with
    | AuxMedian values =>
        let values' := insert values val in
        let middle := (Z.of_nat (length values') / 2)%Z in
        if decide (length values' mod 2 ≠ 0)
        then Ret (arr_get values' middle, AuxMedian values')
        else Ret (js_div_pos (js_add (arr_get values' (middle - 1)) (arr_get values' middle)) 2,
                  AuxMedian values')
    | AuxUndef | AuxEmpty | AuxMode _ _ => Throw TypeError
    end.

(** [reducer(agg, val, n)] *)
Definition invoke (r : reducer) (s : store) (agg val : value) (n : nat)
    : outcome (value * store) :=
  match r with
  | Count => Ret (count agg val n, s)
  | Sum => Ret (sum agg val, s)
  | Mean => Ret (mean agg val n, s)
  | Min => Ret (min agg val, s)
  | Max => Ret (max agg val, s)
  | Mode =>
      '(v, ms) ← mode (s_mode_state s) agg val n;
      Ret (v, Store (s_dataset s) ms (s_reducer_state s))
  | Median =>
      '(v, ms) ← median (s_mode_state s) agg val n;
      Ret (v, Store (s_dataset s) ms (s_reducer_state s))
  | UserDefined f => Ret (f agg val n, s)
  end.

(** [reducer.state = a] *)
Definition set_reducer_state (r : reducer) (a : aux) (s : store) : store :=
  match r with
  | Mode => Store (s_dataset s) a (s_reducer_state s)
  | _ => Store (s_dataset s) (s_mode_state s) a
  end.

(** [reducer.state] *)
Definition get_reducer_state (r : reducer) (s : store) : aux :=
  match r with
  | Mode => s_mode_state s
  | _ => s_reducer_state s
  end.

(** [data.reduce(func)] and [data.reduce(func, initial)] on an array, as
    [reduce(data, func, initial)] of the source calls them: the callback
    receives the index of the element. *)
Fixpoint reduce_from (func : reducer) (s : store) (agg : value) (i : nat)
    (data : list value) : outcome (value * store) :=
  match data with
  | [] => Ret (agg, s)
  | val :: data' =>
      '(agg', s') ← invoke func s agg val i;
      reduce_from func s' agg' (S i) data'
  end.

Definition reduce (data : list value) (func : reducer) (initial : value)
    (s : store) : outcome (value * store) :=
  if not_nullish initial then reduce_from func s initial 0 data
  else match data with
       | [] => Throw TypeError
       | first :: data' => reduce_from func s first 1 data'
       end.

(** *** [dataship.frame.groupby] *)

(** [function(row){ return row[field]; }] *)
Definition field_fn (field : string) : row -> value := fun r => row_get r field.

(** [if(typeof(a) === "string"){ a = function(row){ return row[a]; }; }] *)
Definition resolve_field (a : arg) : arg :=
  match a with
  | AVal (VStr field) => AFun (field_fn field)
  | _ => a
  end.

(** ToBoolean on an argument: functions and objects are truthy. *)
Definition arg_truthy (a : arg) : bool :=
  match a with
  | AVal v => truthy v
  | _ => true
  end.

(** [a || b] *)
Definition or_else (a b : arg) : arg := if arg_truthy a then a else b.

(** [a(row)] *)
Definition call_arg (a : arg) (r : row) : outcome value :=
  match a with
  | AFun f => Ret (f r)
  | _ => Throw TypeError
  end.

Section Pass.
Variables (grouper selector : arg) (reducer_fn : reducer) (initial : value).

(** [result[id] = v; count[id] = n; state[id] = {};] *)
Definition seed (p : pass) (id : string) (v : value) (n : nat) : pass :=
  Pass (p_store p) (obj_set (p_result p) id v) (<[ id := n ]> (p_count p))
       (<[ id := AuxEmpty ]> (p_state p)) (p_calls p).

(** Lines 1016 to 1021: the invocation of the reducer for the group.
    [count[id]] is read as a number: it is set wherever [result[id]] is
    (see [pass_ok]). *)
Definition fold_in (p : pass) (id : string) (val : value) : outcome pass :=
  let agg := obj_get (p_result p) id in
  match p_count p !! id with
  | None => Throw Unsupported
  | Some n =>
      let s1 := set_reducer_state reducer_fn (default AuxUndef (p_state p !! id)) (p_store p) in
      '(r, s2) ← invoke reducer_fn s1 agg val n;
      Ret (Pass s2 (obj_set (p_result p) id r) (<[ id := n + 1 ]> (p_count p))
                (<[ id := get_reducer_state reducer_fn s2 ]> (p_state p))
                (p_calls p ++ [(id, agg, val, n)]))
  end.

(** The body of the [for] loop. *)
Definition groupby_row (r : row) (p : pass) : outcome pass :=
  idv ← call_arg grouper r;
  val ← call_arg selector r;
  let id := to_string idv in
  if is_undefined (obj_get (p_result p) id) then
    if not_nullish initial then fold_in (seed p id initial 0) id val
    else Ret (seed p id val 1)
  else fold_in p id val.

(** [for(i = 0; i < dataset.length; i++){ row = dataset[i]; ... }] from
    the current value of [i]. *)
Equations? groupby_loop (i : nat) (p : pass) : outcome pass
    by wf (length (s_dataset (p_store p)) - i) lt :=
  groupby_loop i p with Equations.Prop.Logic.inspect (s_dataset (p_store p) !! i) => {
    | exist _ None _ => Ret p
    | exist _ (Some r) Hrow with Equations.Prop.Logic.inspect (groupby_row r p) => {
        | exist _ (Throw e) _ => Throw e
        | exist _ (Ret p') Hstep => groupby_loop (S i) p' } }.
Proof.
  assert (Hds : s_dataset (p_store p') = s_dataset (p_store p)).
  { clear -Hstep. revert Hstep.
    unfold groupby_row, fold_in, invoke, mode, median, call_arg.
    intros H.
    repeat (match type of H with
            | context [match ?x with _ => _ end] => destruct x eqn:?
            end; simpl in H; try discriminate);
      inversion H; subst; simpl; try reflexivity;
      destruct reducer_fn; simpl in *; simplify_eq; reflexivity. }
  rewrite Hds. apply lookup_lt_Some in Hrow. lia.
Qed.
End Pass.

(** [dataship.frame.groupby(dataset, grouper, selector, reducer, initial)];
    the dataset is the one of the store.  Returns [result] and the store
    the call leaves. *)
Definition groupby_pass (s : store) (grouper selector : arg)
    (reducer_arg : option reducer) (initial : value) : outcome pass :=
  let '(reducer_fn, initial) :=
    match reducer_arg with
    | None => (Count, VInt 0)
    | Some r => (r, initial)
    end in
  let grouper := resolve_field grouper in
  let selector := or_else selector grouper in
  let selector := resolve_field selector in
  groupby_loop grouper selector reducer_fn initial 0 (Pass s [] ∅ ∅ []).

Definition groupby (s : store) (grouper selector : arg)
    (reducer_arg : option reducer) (initial : value) : outcome (obj * store) :=
  p ← groupby_pass s grouper selector reducer_arg initial;
  Ret (p_result p, p_store p).

(** *** The pass as a fold over the rows that remain *)

(** The loop body applied to the rows in order; [groupby_loop] from index
    [i] is this fold over the rows from [i] on. *)
Fixpoint run_rows (grouper selector : arg) (reducer_fn : reducer) (initial : value)
    (rows : list row) (p : pass) : outcome pass :=
  match rows with
  | [] => Ret p
  | r :: rows' =>
      p' ← groupby_row grouper selector reducer_fn initial r p;
      run_rows grouper selector reducer_fn initial rows' p'
  end.

(** *** [dataship.frame.groupers.interval] *)

(** The labeler [interval] picks from the lengths of [labels] and
    [bounds]; [labels] is [None] when it is omitted. *)
Definition interval_labeler (bounds : list value) (labels : option (list value))
    : option (nat -> value) :=
  match labels with
  | None => Some (fun i => VNum (num_of_nat i))
  | Some ls =>
      if length ls <? length bounds then Some (fun i => VNum (num_of_nat i))
      else if length bounds + 1 <=? length ls
      then Some (fun i => arr_get ls (Z.of_nat i))
      else if length ls =? length bounds
      then Some (fun i => if i <? length ls then arr_get ls (Z.of_nat i)
                          else js_add (VStr ">") (arr_get ls (Z.of_nat i - 1)))
      else None
  end.

(** [for(var i = 0; i < bounds.length; i++){ if(val < bounds[i]) return
    labeler(i); } return labeler(i);]: the value of [i] at the return,
    scanning the bounds that remain from index [i] on. *)
Fixpoint first_above (val : value) (bounds : list value) (i : nat) : nat :=
  match bounds with
  | [] => i
  | b :: bounds' => if js_lt val b then i else first_above val bounds' (S i)
  end.

(** The grouper [interval] returns; reading [selector.label] fails at
    once on a selector that is [undefined]. *)
Definition interval (selector : arg) (bounds : list value)
    (labels : option (list value)) : outcome (row -> outcome value) :=
  let selector := resolve_field selector in
  let labeler := interval_labeler bounds labels in
  let grouper := fun r : row =>
    val ← call_arg selector r;
    match labeler with
    | Some f => Ret (f (first_above val bounds 0))
    | None => Throw TypeError
    end in
  match selector with
  | AVal VUndef => Throw TypeError
  | _ => Ret grouper
  end.

(** *** [dataship.frame.column] *)

(** [isfunction(a)] *)
Definition is_function (a : arg) : bool :=
  match a with AFun _ => true | _ => false end.

(** [isstring(a)] *)
Definition is_string_arg (a : arg) : bool :=
  match a with AVal v => is_string v | _ => false end.

(** [dataship.frame.column(dataset, selector)]: a list of rows is a
    valid frame. *)
Definition column (dataset : list row) (selector : arg) : outcome (list value) :=
  if negb (is_string_arg selector) && negb (is_function selector)
  then Throw (Error "selector must be a string or function")
  else
    match resolve_field selector with
    | AFun f => Ret (f <$> dataset)
    | _ => Throw TypeError
    end.

(** *** The binning index as the specification words it *)

(** The index of the first bound strictly greater than [x], or the number
    of bounds when no bound exceeds it. *)
Definition spec_index (x : Qc) (bs : list Qc) : nat :=
  match list_find (λ b, Qcltb x b = true) bs with
  | Some (i, _) => i
  | None => length bs
  end.

(** *** Group keys of a dataset *)






(** *** The state of the pass under the default reducer *)


(** *** The state of the pass in general *)





(** *** The median as the specification words it *)

(** The median of a sorted sequence: the middle element when the length
    is odd, the average of the elements at [length/2 - 1] and [length/2]
    (integer division) when it is even. *)
Definition spec_median (sorted : list Qc) : Qc :=
  let len := length sorted in
  if Nat.odd len then nth (len / 2) sorted (Q2Qc 0)
  else ((nth (len / 2 - 1) sorted (Q2Qc 0) + nth (len / 2) sorted (Q2Qc 0))
        / num_of_Z 2)%Qc.

(** *** Occurrence counts, for the mode *)







(** *** Further specification-side definitions *)


(** The sum of a list of numbers. *)
Definition total (qs : list Qc) : Qc := foldr Qcplus (Q2Qc 0) qs.

(** The arithmetic mean of a list of numbers. *)
Definition arith_mean (qs : list Qc) : Qc := (total qs / num_of_nat (length qs))%Qc.


(** *** [dataship.num.equal] *)

(** [a !== b]: [NaN] differs from everything, itself included. *)
Definition strict_neq (a b : value) : bool :=
  match a, b with
  | VUndef, VUndef => false
  | VNum x, VNum y => bool_decide (x ≠ y)
  | VStr s, VStr t => bool_decide (s ≠ t)
  | _, _ => true
  end.

(** [for(var i = 0; i < a.length; i++){ if(a[i] !== b[i]) return false; }
    return true;] from the current value of [i], with [todo] iterations
    to go. *)
Fixpoint equal_loop (a b : list value) (i todo : nat) : bool :=
  match todo with
  | 0 => true
  | S todo' =>
      if strict_neq (arr_get a (Z.of_nat i)) (arr_get b (Z.of_nat i)) then false
      else equal_loop a b (S i) todo'
  end.

Definition equal (a b : list value) : bool :=
  if decide (length a ≠ length b) then false
  else equal_loop a b 0 (length a).

(** *** [dataship.num.argmax] on arrays *)

(** [Number.MIN_SAFE_INTEGER] *)
Definition MIN_SAFE_INTEGER : Qc := num_of_Z (- (2 ^ 53 - 1)).

(** [for(key in data){ val = data[key]; if(val > max){ max = val; arg =
    key; } }] on an array, whose keys are its indices in ascending order;
    [i] is the index of the head of [data], and the result is the final
    [max] and [arg]. *)
Fixpoint argmax_loop (data : list value) (i : nat) (max : value) (arg : option nat)
    : value * option nat :=
  match data with
  | [] => (max, arg)
  | val :: data' =>
      if js_gt val max then argmax_loop data' (S i) val (Some i)
      else argmax_loop data' (S i) max arg
  end.

(** [parseInt(arg)] gives the index back from its key, and [NaN] when
    [arg] was never assigned. *)
Definition argmax (data : list value) : value :=
  match (argmax_loop data 0 (VNum MIN_SAFE_INTEGER) None).2 with
  | Some i => VNum (num_of_nat i)
  | None => VNaN
  end.

(** *** [objectValues], [dataship.frame] and [dataship.frame.widen] *)

(** [Object.keys(obj).map(function(key){ return obj[key]; })] *)
Definition objectValues (o : obj) : list value := obj_get o <$> own_keys o.


(** [isnumber(v)]: [NaN] is a number. *)
Definition is_number (v : value) : bool :=
  match v with VNum _ | VNaN => true | _ => false end.

(** [dataship.frame.widen(dataset, values, identifier)] with an array of
    scalars for [values]; the rows it returns are the rows of the
    caller, updated in place. *)
Definition widen (dataset : list row) (values : list value) (identifier : value)
    : outcome (list row) :=
  if decide (length dataset ≠ length values)
  then Throw (Error "datasets must be of equal lengths")
  else
    match dataset with
    | [] => Ret dataset
    | row0 :: _ =>
        if is_number (arr_get values 0) then
          let identifier :=
            if truthy identifier then identifier
            else js_add (VStr "column") (VNum (num_of_nat (size row0))) in
          Ret (imap (λ i row, <[ to_string identifier := arr_get values (Z.of_nat i) ]> row)
                    dataset)
        else Ret dataset
    end.

(** *** [reduce], [map] and [filter] on objects *)

(** The [for(key in data)] loop of [reduce] over the keys that remain;
    [result] is [None] while it is [null], and [i] counts the keys
    visited. *)
Fixpoint reduce_keys (data : obj) (func : reducer) (initial : value)
    (keys : list string) (result : option value) (i : nat) (s : store)
    : outcome (option value * store) :=
  match keys with
  | [] => Ret (result, s)
  | key :: keys' =>
      '(r, s') ←
        match result with
        | None =>
            if not_nullish initial then invoke func s initial (obj_get data key) i
            else Ret (obj_get data key, s)
        | Some agg => invoke func s agg (obj_get data key) i
        end;
      reduce_keys data func initial keys' (Some r) (S i) s'
  end.

(** [reduce(data, func, initial)] on an object; [None] is [null]. *)
Definition reduce_obj (data : obj) (func : reducer) (initial : value) (s : store)
    : outcome (option value * store) :=
  reduce_keys data func initial (own_keys data) None 0 s.



(** *** [range] *)

(** [Math.ceil] *)
Definition ceil (q : Qc) : Z := Qceiling q.

(** [range(start)], [range(start, stop)] and [range(start, stop, step)] on
    numbers: [rest] holds the arguments after the first.  [None] is the
    [RangeError] of [new Array(N)] for an [N] that is negative, infinite
    or above [2^32 - 1]. *)
Definition range (start : Qc) (rest : option (Qc * option Qc)) : option (list Qc) :=
  let '(start, stop, step) :=
    match rest with
    | None => (Q2Qc 0, start, None)
    | Some (stop, step) => (start, stop, step)
    end in
  let step := default (num_of_Z 1) step in
  if Qcltb start stop then
    if decide (step = Q2Qc 0) then None
    else
      let N := ceil ((stop - start) / step) in
      if decide (N < 0 ∨ 2 ^ 32 <= N)%Z then None
      else Some ((λ n, start + num_of_nat n * step)%Qc <$> seq 0 (Z.to_nat N))
  else Some [].

(** *** The pass under [median] when the dataset is one group *)


(** *** Further example data *)




(** *** Facts about the operators on numbers *)

Lemma Qcltb_lt (x y : Qc) : Qcltb x y = true <-> (x < y)%Qc.
Proof.
  unfold Qcltb. rewrite Qclt_alt. destruct (x ?= y)%Qc; split; congruence.
Qed.

Lemma Qcltb_ge (x y : Qc) : Qcltb x y = false <-> (y <= x)%Qc.
Proof.
  rewrite <- not_true_iff_false, Qcltb_lt. split.
  - apply Qcnot_lt_le.
  - apply Qcle_not_lt.
Qed.

Lemma d_num_pos (a b : Qc) : (d (VNum a) (VNum b) > 0)%Z <-> (b < a)%Qc.
Proof.
  unfold d, js_gt, js_lt; simpl. rewrite <- Qcltb_lt.
  destruct (Qcltb b a), (Qcltb a b); split; (lia || congruence).
Qed.

Lemma d_num_neg (a b : Qc) :
  ¬ (d (VNum a) (VNum b) > 0)%Z → ((d (VNum a) (VNum b) < 0)%Z <-> (a < b)%Qc).
Proof.
  unfold d, js_gt, js_lt; simpl. rewrite <- Qcltb_lt.
  destruct (Qcltb b a), (Qcltb a b); intros ?; split; (lia || congruence).
Qed.

Lemma d_num_zero (a b : Qc) :
  ¬ (d (VNum a) (VNum b) > 0)%Z → ¬ (d (VNum a) (VNum b) < 0)%Z → a = b.
Proof.
  intros H1 H2. rewrite d_num_pos in H1. rewrite d_num_neg in H2 by (by rewrite d_num_pos).
  apply Qcle_antisym; by apply Qcnot_lt_le.
Qed.

Lemma bs_loop_step arr el comparator m n :
  bs_loop arr el comparator m n =
  if decide (m <= n)%Z then
    let k := Z.shiftr (n + m) 1 in
    let c := comparator el (arr_get arr k) in
    if decide (c > 0)%Z then bs_loop arr el comparator (k + 1)%Z n
    else if decide (c < 0)%Z then bs_loop arr el comparator m (k - 1)%Z
    else k
  else m.
Proof. rewrite bs_loop_equation_1. by destruct (decide (m <= n)%Z). Qed.

Lemma arr_get_nums (l : list Qc) (k : Z) (x : Qc) :
  l !! Z.to_nat k = Some x → (0 <= k)%Z → arr_get (VNum <$> l) k = VNum x.
Proof.
  intros H ?. unfold arr_get. rewrite decide_True by done.
  by rewrite list_lookup_fmap, H.
Qed.

(** The loop of [binarySearch] on a sorted array of numbers: everything
    left of the returned index is at most the target and everything from
    it on is at least the target. *)
Lemma bs_loop_sorted (l : list Qc) (v : Qc) (fuel : nat) (m n : Z) :
  StronglySorted Qcle l →
  (Z.to_nat (n - m + 1) <= fuel) →
  (0 <= m)%Z → (m <= n + 1)%Z → (n < Z.of_nat (length l))%Z →
  (∀ j x, l !! j = Some x → (Z.of_nat j < m)%Z → (x <= v)%Qc) →
  (∀ j x, l !! j = Some x → (n < Z.of_nat j)%Z → (v <= x)%Qc) →
  let i := bs_loop (VNum <$> l) (VNum v) d m n in
  (m <= i <= n + 1)%Z ∧
  (∀ j x, l !! j = Some x → (Z.of_nat j < i)%Z → (x <= v)%Qc) ∧
  (∀ j x, l !! j = Some x → (i <= Z.of_nat j)%Z → (v <= x)%Qc).
Proof.
  intros Hs. revert m n.
  induction fuel as [|fuel IH]; intros m n Hfuel Hm Hmn Hn Hlo Hhi;
    cbv zeta; rewrite bs_loop_step.
  { rewrite decide_False by lia. repeat split; try lia; eauto.
    intros j x Hj ?. eapply Hhi; eauto. lia. }
  destruct (decide (m <= n)%Z) as [Hle|Hgt]; cbv zeta.
  2:{ repeat split; try lia; eauto. intros j x Hj ?. eapply Hhi; eauto. lia. }
  set (k := Z.shiftr (n + m) 1).
  assert (Hk : (m <= k <= n)%Z).
  { subst k. rewrite Z.shiftr_div_pow2 by lia. change (2 ^ 1)%Z with 2%Z.
    pose proof (Z.div_mod (n + m) 2 ltac:(lia)).
    pose proof (Z.mod_pos_bound (n + m) 2 ltac:(lia)). lia. }
  destruct (l !! Z.to_nat k) as [y|] eqn:Hy.
  2:{ apply lookup_ge_None in Hy. lia. }
  rewrite (arr_get_nums l k y) by (done || lia).
  assert (Hsort : ∀ j1 j2 x1 x2, l !! j1 = Some x1 → l !! j2 = Some x2 →
                                 j1 <= j2 → (x1 <= x2)%Qc).
  { clear -Hs. intros j1 j2 x1 x2 H1 H2 Hj.
    destruct (decide (j1 = j2)) as [->|]; [rewrite H1 in H2; injection H2 as ->; apply Qcle_refl|].
    assert (j1 < j2) as Hlt by lia. clear Hj.
    assert (j2 < length l) by (by apply lookup_lt_Some in H2).
    rewrite <- (take_drop j2 l) in Hs, H1, H2.
    rewrite lookup_app_l in H1 by (rewrite length_take; lia).
    rewrite lookup_app_r in H2 by (rewrite length_take; lia).
    eapply StronglySorted_app_1_elem_of; eauto using list_elem_of_lookup_2. }
  destruct (decide (d (VNum v) (VNum y) > 0)%Z) as [Hpos|Hnpos].
  - apply d_num_pos in Hpos.
    edestruct (IH (k + 1)%Z n) as (? & ? & ?); try lia; eauto.
    { intros j x Hj ?. apply Qcle_trans with y; [|by apply Qclt_le_weak].
      eapply Hsort; eauto. lia. }
    repeat split; eauto; lia.
  - destruct (decide (d (VNum v) (VNum y) < 0)%Z) as [Hneg|Hnneg].
    + apply d_num_neg in Hneg; [|done].
      edestruct (IH m (k - 1)%Z) as (? & ? & ?); try lia; eauto.
      { intros j x Hj ?. apply Qcle_trans with y; [by apply Qclt_le_weak|].
        eapply Hsort; eauto. lia. }
      repeat split; eauto; lia.
    + pose proof (d_num_zero _ _ Hnpos Hnneg) as ->.
      repeat split; try lia.
      * intros j x Hj ?. eapply Hsort; eauto. lia.
      * intros j x Hj ?. eapply Hsort; eauto. lia.
Qed.

(** The index [binarySearch] returns on a sorted array of numbers. *)
Lemma binarySearch_sorted (l : list Qc) (v : Qc) :
  StronglySorted Qcle l →
  let i := binarySearch (VNum <$> l) (VNum v) d in
  (0 <= i <= Z.of_nat (length l))%Z ∧
  (∀ j x, l !! j = Some x → (Z.of_nat j < i)%Z → (x <= v)%Qc) ∧
  (∀ j x, l !! j = Some x → (i <= Z.of_nat j)%Z → (v <= x)%Qc).
Proof.
  intros Hs. unfold binarySearch. rewrite length_fmap.
  edestruct (bs_loop_sorted l v _ 0%Z (Z.of_nat (length l) - 1)%Z Hs (le_n _))
    as (? & ? & ?); try lia.
  - intros j x Hj ?. apply lookup_lt_Some in Hj. lia.
  - repeat split; eauto; lia.
Qed.

Lemma splice_in_nums (l : list Qc) (v : Qc) (i : Z) :
  (0 <= i <= Z.of_nat (length l))%Z →
  splice_in (VNum <$> l) i (VNum v)
  = VNum <$> (take (Z.to_nat i) l ++ v :: drop (Z.to_nat i) l).
Proof.
  intros Hi. unfold splice_in. rewrite length_fmap.
  rewrite decide_False by lia. rewrite Z.min_l by lia.
  by rewrite fmap_app, fmap_cons, fmap_take, fmap_drop.
Qed.

Lemma splice_sorted (l : list Qc) (v : Qc) (i : nat) :
  StronglySorted Qcle l →
  (∀ j x, l !! j = Some x → j < i → (x <= v)%Qc) →
  (∀ j x, l !! j = Some x → i <= j → (v <= x)%Qc) →
  StronglySorted Qcle (take i l ++ v :: drop i l).
Proof.
  intros Hs Hlo Hhi. rewrite <- (take_drop i l) in Hs.
  apply StronglySorted_app in Hs as (Hx & H1 & H2).
  assert (Hv : Forall (Qcle v) (drop i l)).
  { apply Forall_forall. intros x [j Hj]%list_elem_of_lookup_1.
    rewrite lookup_drop in Hj. eapply Hhi; eauto. lia. }
  apply StronglySorted_app. split_and!; [|done|by constructor].
  intros x1 x2 [j Hj]%list_elem_of_lookup_1 Hx2.
  assert (x1 <= v)%Qc.
  { pose proof (lookup_lt_Some _ _ _ Hj) as Hlen. rewrite length_take in Hlen.
    rewrite lookup_take_lt in Hj by lia. eapply Hlo; eauto. lia. }
  apply elem_of_cons in Hx2 as [->|Hx2]; [done|].
  apply Qcle_trans with v; [done|].
  by eapply Forall_forall in Hv.
Qed.

(** [insert] on a sorted array of numbers: the result is the array with the
    new number spliced in at the index found, and is sorted. *)
Lemma insert_nums (l : list Qc) (v : Qc) :
  StronglySorted Qcle l →
  let i := Z.to_nat (binarySearch (VNum <$> l) (VNum v) d) in
  insert (VNum <$> l) (VNum v) = VNum <$> (take i l ++ v :: drop i l) ∧
  StronglySorted Qcle (take i l ++ v :: drop i l).
Proof.
  intros Hs. destruct (binarySearch_sorted l v Hs) as (Hi & Hlo & Hhi).
  cbv zeta. split.
  - unfold insert. cbv zeta. by apply splice_in_nums.
  - apply splice_sorted; [done| |].
    + intros j x Hj ?. eapply Hlo; eauto. lia.
    + intros j x Hj ?. eapply Hhi; eauto. lia.
Qed.

Lemma splice_perm (l : list Qc) (v : Qc) (i : nat) :
  take i l ++ v :: drop i l ≡ₚ v :: l.
Proof. rewrite <- Permutation_middle. by rewrite take_drop. Qed.

(** Inserting numbers one by one into the empty array. *)
Lemma foldl_insert_sorted (vs l : list Qc) :
  StronglySorted Qcle l →
  ∃ l', foldl insert (VNum <$> l) (VNum <$> vs) = VNum <$> l' ∧
        StronglySorted Qcle l' ∧ l' ≡ₚ l ++ vs.
Proof.
  revert l. induction vs as [|v vs IH]; intros l Hs.
  - exists l. by rewrite app_nil_r.
  - rewrite fmap_cons. cbn [foldl].
    destruct (insert_nums l v Hs) as [Heq Hs']. rewrite Heq.
    destruct (IH _ Hs') as (l' & Heq' & ? & Hp). rewrite Heq'.
    exists l'. split_and!; [done..|].
    rewrite Hp, splice_perm. by rewrite <- Permutation_middle.
Qed.

(** *** Insertion keeps the array sorted *)

(** C5. Insertion sortedness.  On a sequence of numbers sorted in
    nondecreasing order, [binarySearch] returns an index between [0] and
    the length at which the target can be inserted without breaking the
    order: [0] on the empty sequence, [0] again for a target below every
    element and the length for a target above every element.  [insert]
    splices the target in there, so its result is sorted and holds the
    old elements and the new one.  Consequently the sequence built from
    the empty one by any series of inserts is sorted. *)
Theorem insert_sortedness (l : list Qc) (v : Qc) :
  Sorted Qcle l →
  let i := binarySearch (VNum <$> l) (VNum v) d in
  (0 <= i <= Z.of_nat (length l))%Z ∧
  (l = [] → i = 0%Z) ∧
  (Forall (λ x, (v < x)%Qc) l → i = 0%Z) ∧
  (Forall (λ x, (x < v)%Qc) l → i = Z.of_nat (length l)) ∧
  Sorted Qcle (take (Z.to_nat i) l ++ v :: drop (Z.to_nat i) l) ∧
  (∃ l', insert (VNum <$> l) (VNum v) = VNum <$> l' ∧
         Sorted Qcle l' ∧ l' ≡ₚ v :: l) ∧
  (∀ vs : list Qc,
     ∃ l', foldl insert [] (VNum <$> vs) = VNum <$> l' ∧
           Sorted Qcle l' ∧ l' ≡ₚ vs).
Proof.
  intros Hs%Sorted_StronglySorted; [|apply _].
  destruct (binarySearch_sorted l v Hs) as (Hi & Hlo & Hhi).
  destruct (insert_nums l v Hs) as [Hins Hsorted].
  cbv zeta. set (i := binarySearch (VNum <$> l) (VNum v) d) in *.
  split_and!.
  - lia.
  - lia.
  - intros ->. simpl in *. lia.
  - intros Hall.
    destruct (decide (0 < i)%Z) as [Hpos|]; [|lia].
    destruct l as [|x l']; [simpl in Hi; lia|].
    apply Forall_cons in Hall as [Hx _].
    pose proof (Hlo 0 x eq_refl ltac:(lia)) as Hle.
    by apply Qcle_not_lt in Hle.
  - intros Hall.
    destruct (decide (i < Z.of_nat (length l))%Z) as [Hlt|]; [|lia].
    destruct (l !! Z.to_nat i) as [x|] eqn:Hx.
    2:{ apply lookup_ge_None in Hx. lia. }
    pose proof (Hhi _ x Hx ltac:(lia)) as Hle.
    eapply Forall_forall in Hall; [|by eapply list_elem_of_lookup_2].
    by apply Qcle_not_lt in Hle.
  - by apply StronglySorted_Sorted.
  - eexists. split_and!; [exact Hins|by apply StronglySorted_Sorted|apply splice_perm].
  - intros vs.
    destruct (foldl_insert_sorted vs [] (SSorted_nil _)) as (l' & ? & ? & ?).
    exists l'. split_and!; [done|by apply StronglySorted_Sorted|done].
Qed.

(** *** The median reducer on numbers *)

Lemma arr_get_nth (l : list Qc) (k : nat) :
  k < length l → arr_get (VNum <$> l) (Z.of_nat k) = VNum (nth k l (Q2Qc 0)).
Proof.
  intros Hk. destruct (l !! k) as [x|] eqn:Hx.
  2:{ apply lookup_ge_None in Hx. lia. }
  rewrite (arr_get_nums l _ x) by (rewrite ?Nat2Z.id; done || lia).
  f_equal. symmetry. by apply nth_lookup_Some with (d := Q2Qc 0) in Hx.
Qed.

(** What [median] reads off its array after the insertion. *)
Lemma median_read (l : list Qc) :
  l ≠ [] →
  (let values' := VNum <$> l in
   let middle := (Z.of_nat (length values') / 2)%Z in
   if decide (length values' mod 2 ≠ 0)
   then arr_get values' middle
   else js_div_pos (js_add (arr_get values' (middle - 1)) (arr_get values' middle)) 2)
  = VNum (spec_median l).
Proof.
  intros Hne. cbv zeta. rewrite length_fmap. unfold spec_median.
  assert (0 < length l) by (destruct l; simpl; [done|lia]).
  change 2%Z with (Z.of_nat 2). rewrite <- Nat2Z.inj_div.
  pose proof (Nat.div_mod (length l) 2 ltac:(lia)) as Hdm.
  pose proof (Nat.mod_upper_bound (length l) 2 ltac:(lia)) as Hmod.
  destruct (decide (length l mod 2 ≠ 0)) as [Hodd|Heven].
  - assert (Nat.odd (length l) = true) as ->.
    { apply Nat.odd_spec. exists (length l / 2). lia. }
    apply arr_get_nth. lia.
  - assert (Nat.odd (length l) = false) as ->.
    { rewrite <- Nat.negb_even. apply negb_false_iff, Nat.even_spec.
      exists (length l / 2). lia. }
    replace (Z.of_nat (length l / 2) - 1)%Z with (Z.of_nat (length l / 2 - 1)) by lia.
    rewrite !arr_get_nth by lia.
    reflexivity.
Qed.

(** One call of [median] for a later contribution of the group: the
    array kept in [dataship.reduce.mode.state] stays sorted and the
    median of it is returned. *)
Lemma median_next (l : list Qc) (agg : value) (v : Qc) (n : nat) :
  2 <= n → StronglySorted Qcle l →
  ∃ l', median (AuxMedian (VNum <$> l)) agg (VNum v) n
        = Ret (VNum (spec_median l'), AuxMedian (VNum <$> l')) ∧
        StronglySorted Qcle l' ∧ l' ≡ₚ v :: l.
Proof.
  intros Hn Hs. destruct (insert_nums l v Hs) as [Hins Hs'].
  eexists. split_and!; [|exact Hs'|apply splice_perm].
  unfold median. rewrite !decide_False by lia. cbv zeta.
  rewrite Hins.
  match goal with |- context [AuxMedian (VNum <$> ?l')] =>
    pose proof (median_read l') as Hread end.
  cbv zeta in Hread.
  destruct (decide _); rewrite Hread; try done;
    by intros ?%app_eq_nil; destruct_and?.
Qed.

(** The first call of [median] for a group, with [n = 1]: the array is
    created from the seed. *)
Lemma median_first (ms : aux) (a v : Qc) :
  ∃ l', median ms (VNum a) (VNum v) 1
        = Ret (VNum (spec_median l'), AuxMedian (VNum <$> l')) ∧
        StronglySorted Qcle l' ∧ l' ≡ₚ [v; a].
Proof.
  assert (Hs : StronglySorted Qcle [a]) by (repeat constructor).
  destruct (insert_nums [a] v Hs) as [Hins Hs'].
  eexists. split_and!; [|exact Hs'|apply splice_perm].
  unfold median. rewrite decide_False by lia. rewrite decide_True by done.
  cbv zeta. change [VNum a] with (VNum <$> [a]).
  rewrite Hins.
  match goal with |- context [AuxMedian (VNum <$> ?l')] =>
    pose proof (median_read l') as Hread end.
  cbv zeta in Hread.
  destruct (decide _); rewrite Hread; try done;
    by intros ?%app_eq_nil; destruct_and?.
Qed.

Lemma reduce_from_median (vs l : list Qc) (agg : value) (n : nat) (s : store) :
  2 <= n → StronglySorted Qcle l →
  s_mode_state s = AuxMedian (VNum <$> l) →
  agg = VNum (spec_median l) →
  ∃ l' s', reduce_from Median s agg n (VNum <$> vs)
           = Ret (VNum (spec_median l'), s') ∧
           StronglySorted Qcle l' ∧ l' ≡ₚ l ++ vs ∧
           s_mode_state s' = AuxMedian (VNum <$> l') ∧
           s_dataset s' = s_dataset s.
Proof.
  revert l agg n s. induction vs as [|v vs IH]; intros l agg n s Hn Hs Hst ->.
  - exists l, s. by rewrite app_nil_r.
  - rewrite fmap_cons. cbn [reduce_from invoke]. rewrite Hst.
    destruct (median_next l (VNum (spec_median l)) v n Hn Hs) as (l1 & -> & Hs1 & Hp1).
    cbn [mbind outcome_bind].
    edestruct (IH l1 (VNum (spec_median l1)) (S n) (Store (s_dataset s) (AuxMedian (VNum <$> l1)) (s_reducer_state s)))
      as (l' & s' & -> & ? & Hp & ? & ?); [lia|done|done|done|].
    exists l', s'. split_and!; try done.
    rewrite Hp, Hp1. by rewrite <- Permutation_middle.
Qed.

(** C6. Median order-independence.  For a non-empty collection of numbers
    [vs] with sorted arrangement [sorted], feeding any permutation [vs']
    of it to the median reducer as the successive contributions of one
    group returns the median of [sorted]: its middle element when the
    count is odd, the average of the elements at [length/2 - 1] and
    [length/2] when it is even. *)
Theorem median_order_independence (vs sorted vs' : list Qc) (s : store) :
  vs ≠ [] → sorted ≡ₚ vs → Sorted Qcle sorted → vs' ≡ₚ vs →
  ∃ s', reduce (VNum <$> vs') Median VUndef s
        = Ret (VNum (spec_median sorted), s').
Proof.
  intros Hne Hperm Hsorted%Sorted_StronglySorted Hperm'; [|apply _].
  assert (Hps : vs' ≡ₚ sorted) by (by rewrite Hperm', Hperm).
  destruct vs' as [|v0 [|v1 rest]].
  - apply Permutation_nil_l in Hps. subst sorted.
    apply Permutation_nil_l in Hperm. by subst vs.
  - apply Permutation_singleton_l in Hps as <-.
    exists s. reflexivity.
  - unfold reduce. simpl not_nullish. cbv iota. rewrite !fmap_cons.
    cbn [reduce_from invoke].
    destruct (median_first (s_mode_state s) v0 v1) as (l1 & -> & Hs1 & Hp1).
    cbn [mbind outcome_bind].
    edestruct (reduce_from_median rest l1 (VNum (spec_median l1)) 2
                 (Store (s_dataset s) (AuxMedian (VNum <$> l1)) (s_reducer_state s)))
      as (l' & s' & -> & Hs' & Hp & _ & _); [lia|done|done|done|].
    exists s'. do 4 f_equal.
    apply (StronglySorted_unique Qcle); [done..|].
    rewrite Hp, Hp1, <- Hps. simpl. apply Permutation_swap.
Qed.

(** *** The mode reducer *)









(** *** The binning grouper *)

Lemma spec_index_cons (x b : Qc) (bs : list Qc) :
  spec_index x (b :: bs) = if Qcltb x b then 0 else S (spec_index x bs).
Proof.
  unfold spec_index. cbn [list_find].
  destruct (Qcltb x b) eqn:Hb.
  - by rewrite decide_True.
  - rewrite decide_False by done.
    by destruct (list_find _ bs) as [[i y]|].
Qed.

Lemma first_above_nums (x : Qc) (bs : list Qc) (i : nat) :
  first_above (VNum x) (VNum <$> bs) i = i + spec_index x bs.
Proof.
  revert i. induction bs as [|b bs IH]; intros i.
  - simpl. unfold spec_index. simpl. lia.
  - rewrite fmap_cons, spec_index_cons. cbn [first_above].
    change (js_lt (VNum x) (VNum b)) with (Qcltb x b).
    destruct (Qcltb x b); [lia|]. rewrite IH. lia.
Qed.

(** [spec_index] is the first bound strictly above the value. *)
Lemma spec_index_first (x : Qc) (bs : list Qc) :
  spec_index x bs <= length bs ∧
  (∀ j b, bs !! j = Some b → j < spec_index x bs → ¬ (x < b)%Qc) ∧
  (∀ b, bs !! spec_index x bs = Some b → (x < b)%Qc).
Proof.
  induction bs as [|b0 bs (IH1 & IH2 & IH3)].
  - unfold spec_index; simpl. split_and!; [lia|intros; lia|done].
  - rewrite spec_index_cons. destruct (Qcltb x b0) eqn:Hb; simpl.
    + split_and!; [lia|intros; lia|]. intros b [= <-]. by apply Qcltb_lt.
    + split_and!; [lia| |done].
      intros [|j] b Hj ?; simpl in Hj.
      * injection Hj as <-. by rewrite <- Qcltb_lt, Hb.
      * eapply IH2; eauto. lia.
Qed.

(** C8. Binning grouper semantics.  For a selector that yields the number
    [x] on the row, and [n] numeric bounds, the grouper built by
    [interval] maps the row to the index of the first bound strictly
    greater than [x], or to [n] when no bound exceeds [x]: as that
    integer when no labels or fewer labels than bounds are given, as
    the label at that index when exactly [n] labels are given and the
    index is below [n], and as [">"] followed by the last label for the
    final interval.  Bounds [[8]] send 8.9 and 8.7 to 1 and 7.6 to 0. *)
Theorem interval_binning (selector : arg) (bs : list Qc)
    (labels : option (list value)) (r : row) (x : Qc) :
  call_arg (resolve_field selector) r = Ret (VNum x) →
  ∃ grouper,
    interval selector (VNum <$> bs) labels = Ret grouper ∧
    let n := length bs in
    let idx := spec_index x bs in
    (idx <= n ∧
     (∀ j b, bs !! j = Some b → j < idx → ¬ (x < b)%Qc) ∧
     (∀ b, bs !! idx = Some b → (x < b)%Qc)) ∧
    (match labels with None => True | Some ls => length ls < n end →
     grouper r = Ret (VNum (num_of_nat idx))) ∧
    (∀ ls, labels = Some ls → length ls = n →
       (idx < n → grouper r = Ret (arr_get ls (Z.of_nat idx))) ∧
       (idx = n → ∀ lab, last ls = Some lab →
                  grouper r = Ret (VStr (">" +:+ to_string lab)))) ∧
    (spec_index (Q2Qc (89 # 10)) [num_of_Z 8] = 1 ∧
     spec_index (Q2Qc (87 # 10)) [num_of_Z 8] = 1 ∧
     spec_index (Q2Qc (76 # 10)) [num_of_Z 8] = 0).
Proof.
  intros Hsel. unfold interval. cbv zeta.
  exists (fun r0 : row =>
            val ← call_arg (resolve_field selector) r0;
            match interval_labeler (VNum <$> bs) labels with
            | Some f => Ret (f (first_above val (VNum <$> bs) 0))
            | None => Throw TypeError
            end).
  split.
  { by destruct (resolve_field selector) as [[]| |]. }
  rewrite Hsel. cbn [mbind outcome_bind].
  rewrite first_above_nums, Nat.add_0_l.
  pose proof (spec_index_first x bs) as Hfirst.
  split; [exact Hfirst|]. split; [|split].
  - destruct labels as [ls|]; [|done].
    intros Hlt. cbn [interval_labeler]. rewrite length_fmap.
    apply Nat.ltb_lt in Hlt. by rewrite Hlt.
  - intros ls -> Hlen. cbn [interval_labeler]. rewrite length_fmap, Hlen.
    rewrite Nat.ltb_irrefl.
    assert ((length bs + 1 <=? length bs) = false) as -> by (apply Nat.leb_gt; lia).
    rewrite Nat.eqb_refl. split.
    + intros Hidx. apply Nat.ltb_lt in Hidx. by rewrite Hidx.
    + intros Hidx lab Hlast. rewrite Hidx, Nat.ltb_irrefl.
      do 2 f_equal. unfold arr_get.
      rewrite last_lookup in Hlast.
      destruct ls as [|l0 ls']; [done|]. simpl in *.
      rewrite decide_True by lia.
      replace (Z.to_nat (Z.of_nat (length bs) - 1)) with (length ls') by lia.
      by rewrite Hlast.
  - vm_compute. done.
Qed.

(** *** The pass of [groupby] *)

Section PassFacts.
Variables (grouper selector : arg) (reducer_fn : reducer) (initial : value).

Lemma invoke_dataset (s s' : store) (agg val v : value) (n : nat) :
  invoke reducer_fn s agg val n = Ret (v, s') → s_dataset s' = s_dataset s.
Proof.
  destruct reducer_fn; simpl; try (intros [= _ <-]; done).
  - destruct (mode _ _ _ _) as [[? ?]|]; simpl; [|done]. by intros [= _ <-].
  - destruct (median _ _ _ _) as [[? ?]|]; simpl; [|done]. by intros [= _ <-].
Qed.

Lemma set_reducer_state_dataset (a : aux) (s : store) :
  s_dataset (set_reducer_state reducer_fn a s) = s_dataset s.
Proof. by destruct reducer_fn. Qed.

Lemma fold_in_dataset (p p' : pass) (id : string) (val : value) :
  fold_in reducer_fn p id val = Ret p' →
  s_dataset (p_store p') = s_dataset (p_store p).
Proof.
  unfold fold_in. destruct (p_count p !! id) as [n|]; [|done].
  destruct (invoke _ _ _ _ _) as [[v s2]|] eqn:Hinv; simpl; [|done].
  intros [= <-]. simpl. apply invoke_dataset in Hinv.
  by rewrite Hinv, set_reducer_state_dataset.
Qed.

(** The loop body leaves the dataset as it is. *)
Lemma groupby_row_dataset (r : row) (p p' : pass) :
  groupby_row grouper selector reducer_fn initial r p = Ret p' →
  s_dataset (p_store p') = s_dataset (p_store p).
Proof.
  unfold groupby_row.
  destruct (call_arg grouper r) as [idv|]; simpl; [|done].
  destruct (call_arg selector r) as [val|]; simpl; [|done].
  destruct (is_undefined _); [destruct (not_nullish initial)|].
  - intros H%fold_in_dataset. done.
  - by intros [= <-].
  - apply fold_in_dataset.
Qed.

Lemma groupby_loop_step (i : nat) (p : pass) :
  groupby_loop grouper selector reducer_fn initial i p =
  match s_dataset (p_store p) !! i with
  | None => Ret p
  | Some r =>
      p' ← groupby_row grouper selector reducer_fn initial r p;
      groupby_loop grouper selector reducer_fn initial (S i) p'
  end.
Proof.
  rewrite groupby_loop_equation_1.
  destruct (Logic.inspect (s_dataset (p_store p) !! i)) as [[r|] Hr];
    simp groupby_loop; [|by rewrite Hr].
  destruct (Logic.inspect (groupby_row grouper selector reducer_fn initial r p))
    as [[p'|e] Hp]; simp groupby_loop; rewrite Hr, Hp; cbn [mbind outcome_bind];
    [by rewrite groupby_loop_equation_1|done].
Qed.

(** The loop from index [i] is the fold of the body over the rows from
    [i] on. *)
Lemma groupby_loop_run (i : nat) (p : pass) :
  groupby_loop grouper selector reducer_fn initial i p
  = run_rows grouper selector reducer_fn initial (drop i (s_dataset (p_store p))) p.
Proof.
  remember (length (s_dataset (p_store p)) - i) as k eqn:Hk.
  revert i p Hk. induction k as [|k IH]; intros i p Hk;
    rewrite groupby_loop_step.
  - rewrite drop_ge by lia. rewrite (lookup_ge_None_2 _ i) by lia. done.
  - destruct (s_dataset (p_store p) !! i) as [r|] eqn:Hr.
    2:{ apply lookup_ge_None in Hr. lia. }
    rewrite (drop_S _ _ _ Hr). cbn [run_rows].
    destruct (groupby_row _ _ _ _ r p) as [p'|e] eqn:Hp; [|done].
    cbn [mbind outcome_bind].
    pose proof (groupby_row_dataset _ _ _ Hp) as Hds.
    rewrite IH by (rewrite Hds; lia). by rewrite Hds.
Qed.

End PassFacts.

(** *** Objects *)








(** *** The enumeration of an object *)




(** *** The default reducer *)




(** *** Every pass completes *)











(** *** Order of first encounter *)










(** *** What one row does to the pass *)












(** C3.  What the code does with an argument that is neither a string
    nor a function: [groupby] performs no check when it resolves its
    arguments.  Given as the grouper, the call returns the empty mapping
    on an empty dataset, and on any other dataset the host raises a
    [TypeError] at the call [grouper(row)] of the first row.  Given as the
    selector beside a valid grouper, it is silently replaced by the
    grouper when it is falsy, and otherwise behaves as above at the call
    [selector(row)].  [dataship.frame.column], given the same argument,
    rejects it at once with its own message. *)
Theorem groupby_checks_no_argument (s : store) (bad other : arg)
    (g : row -> value) (reducer_arg : option reducer) (initial : value) :
  is_string_arg bad = false → is_function bad = false →
  ((s_dataset s = [] →
    groupby s bad other reducer_arg initial = Ret ([], s)) ∧
   (s_dataset s ≠ [] →
    groupby s bad other reducer_arg initial = Throw TypeError)) ∧
  (resolve_field other = AFun g →
   (arg_truthy bad = false →
    groupby s other bad reducer_arg initial
    = groupby s other (AVal VUndef) reducer_arg initial) ∧
   (arg_truthy bad = true → s_dataset s = [] →
    groupby s other bad reducer_arg initial = Ret ([], s)) ∧
   (arg_truthy bad = true → s_dataset s ≠ [] →
    groupby s other bad reducer_arg initial = Throw TypeError)) ∧
  column (s_dataset s) bad
  = Throw (Error "selector must be a string or function").
Proof.
  intros Hstr Hfun.
  assert (Hres : resolve_field bad = bad).
  { destruct bad as [[]| |]; try done. }
  assert (Hcall : ∀ x, call_arg bad x = Throw TypeError).
  { intros x. destruct bad as [[]| |]; try done. }
  split_and!.
  - intros Hds. unfold groupby, groupby_pass. rewrite Hres.
    destruct reducer_arg; rewrite groupby_loop_run; cbn [p_store];
      rewrite Hds; reflexivity.
  - intros Hds. unfold groupby, groupby_pass. rewrite Hres.
    destruct (s_dataset s) as [|x rows] eqn:Hrows; [done|].
    destruct reducer_arg; rewrite groupby_loop_run; cbn [p_store];
      rewrite Hrows, drop_0; cbn [run_rows]; unfold groupby_row;
      rewrite Hcall; reflexivity.
  - intros Hg. split_and!.
    + intros Hfalsy. unfold groupby, groupby_pass, or_else.
      by rewrite Hfalsy.
    + intros Htruthy Hds. unfold groupby, groupby_pass, or_else.
      rewrite Hg, Htruthy, Hres.
      destruct reducer_arg; rewrite groupby_loop_run; cbn [p_store];
        rewrite Hds; reflexivity.
    + intros Htruthy Hds. unfold groupby, groupby_pass, or_else.
      rewrite Hg, Htruthy, Hres.
      destruct (s_dataset s) as [|x rows] eqn:Hrows; [done|].
      destruct reducer_arg; rewrite groupby_loop_run; cbn [p_store];
        rewrite Hrows, drop_0; cbn [run_rows]; unfold groupby_row;
        cbn [call_arg mbind outcome_bind]; rewrite Hcall; reflexivity.
  - unfold column. by rewrite Hstr, Hfun.
Qed.

(** *** Groups are isolated under [mode] *)











(** *** Groups under the stateless reducers *)








(** *** The reducers on arrays of numbers *)

Lemma num_of_Z_add (a b : Z) : num_of_Z (a + b) = (num_of_Z a + num_of_Z b)%Qc.
Proof.
  unfold num_of_Z, Qcplus. apply Q2Qc_eq_iff. cbn [this Q2Qc].
  rewrite !Qred_correct, inject_Z_plus. reflexivity.
Qed.

Lemma num_of_Z_inj (a b : Z) : num_of_Z a = num_of_Z b → a = b.
Proof.
  unfold num_of_Z. intros H%Q2Qc_eq_iff. by apply inject_Z_injective.
Qed.

Lemma num_of_succ (n : nat) :
  num_of_Z (Z.pos (Pos.of_succ_nat n)) = (num_of_nat n + num_of_Z 1)%Qc.
Proof.
  unfold num_of_nat. rewrite <- num_of_Z_add. f_equal. lia.
Qed.

Lemma num_of_nat_S (n : nat) : num_of_nat (S n) = (num_of_nat n + num_of_Z 1)%Qc.
Proof.
  unfold num_of_nat. rewrite <- num_of_Z_add. f_equal. lia.
Qed.

Lemma num_of_nat_nonzero (n : nat) : n ≠ 0 → num_of_nat n ≠ Q2Qc 0.
Proof.
  intros Hn H. apply (num_of_Z_inj (Z.of_nat n) 0) in H. lia.
Qed.

Lemma total_app (xs ys : list Qc) : total (xs ++ ys) = (total xs + total ys)%Qc.
Proof.
  induction xs as [|x xs IH]; cbn [app total foldr].
  - by rewrite Qcplus_0_l.
  - fold (total (xs ++ ys)). fold (total xs). rewrite IH. ring.
Qed.




Lemma mean_step (seen : list Qc) (q : Qc) :
  seen ≠ [] →
  mean (VNum (arith_mean seen)) (VNum q) (length seen) = VNum (arith_mean (seen ++ [q])).
Proof.
  intros Hne. unfold mean, js_add, js_sub, js_div_pos.
  cbn [is_string orb to_number]. f_equal.
  unfold arith_mean. rewrite total_app, length_app. cbn [length total foldr].
  rewrite num_of_succ. replace (length seen + 1) with (S (length seen)) by lia.
  rewrite num_of_nat_S. change (num_of_Z 1) with 1%Qc.
  assert (num_of_nat (length seen) ≠ Q2Qc 0) as Hn.
  { apply num_of_nat_nonzero. by destruct seen. }
  assert (num_of_nat (length seen) + 1 ≠ Q2Qc 0)%Qc as Hn1.
  { change 1%Qc with (num_of_Z 1). rewrite <- num_of_nat_S.
    by apply num_of_nat_nonzero. }
  field. by split.
Qed.

Lemma reduce_from_mean (s : store) (seen rest : list Qc) :
  seen ≠ [] →
  reduce_from Mean s (VNum (arith_mean seen)) (length seen) (VNum <$> rest)
  = Ret (VNum (arith_mean (seen ++ rest)), s).
Proof.
  revert seen. induction rest as [|q rest IH]; intros seen Hne.
  - by rewrite app_nil_r.
  - rewrite fmap_cons. cbn [reduce_from invoke mbind outcome_bind].
    rewrite mean_step by done.
    replace (S (length seen)) with (length (seen ++ [q])) by (rewrite length_app; cbn; lia).
    rewrite IH by (by destruct seen). by rewrite <- app_assoc.
Qed.

Lemma arith_mean_one (q : Qc) : arith_mean [q] = q.
Proof.
  unfold arith_mean. cbn [total foldr length].
  change (num_of_nat 1) with 1%Qc. field. apply Q_apart_0_1.
Qed.

(** From the first element as the seed. *)
Lemma reduce_from_mean_first (s : store) (q : Qc) (rest : list Qc) :
  reduce_from Mean s (VNum q) 1 (VNum <$> rest)
  = Ret (VNum (arith_mean (q :: rest)), s).
Proof.
  rewrite <- (arith_mean_one q) at 1. by apply (reduce_from_mean s [q] rest).
Qed.

(** The first call with an initial value forgets it. *)
Lemma mean_from_initial (a q : Qc) : mean (VNum a) (VNum q) 0 = VNum q.
Proof.
  unfold mean, js_add, js_sub, js_div_pos. cbn [is_string orb to_number]. f_equal.
  change (num_of_Z (Z.pos (Pos.of_succ_nat 0))) with 1%Qc. field. apply Q_apart_0_1.
Qed.

(** [dataship.num.mean], and [reduce] with [dataship.reduce.mean]: on a
    non-empty array of numbers (exact rationals) the running update
    [agg + (val - agg)/(n + 1)] ends in the arithmetic mean of the
    elements; an initial number, when given, leaves no trace in it. *)
Theorem mean_is_arithmetic_mean (qs : list Qc) (init : option Qc) (s : store) :
  qs ≠ [] →
  reduce (VNum <$> qs) Mean (from_option VNum VUndef init) s
  = Ret (VNum (arith_mean qs), s).
Proof.
  intros Hne. destruct qs as [|q rest]; [done|].
  unfold reduce. rewrite fmap_cons.
  destruct init as [a|]; cbn [from_option not_nullish is_undefined negb].
  - cbn [reduce_from invoke mbind outcome_bind]. rewrite mean_from_initial.
    apply reduce_from_mean_first.
  - apply reduce_from_mean_first.
Qed.

Lemma reduce_from_max (s : store) (a : Qc) (i : nat) (qs : list Qc) :
  ∃ m, reduce_from Max s (VNum a) i (VNum <$> qs) = Ret (VNum m, s) ∧
       m ∈ a :: qs ∧ ∀ x, x ∈ a :: qs → (x <= m)%Qc.
Proof.
  revert a i. induction qs as [|q qs IH]; intros a i.
  - exists a. split_and!; [done|set_solver|].
    intros x ->%list_elem_of_singleton. apply Qcle_refl.
  - rewrite fmap_cons. cbn [reduce_from invoke mbind outcome_bind].
    unfold max, js_gt, js_lt. cbn [to_number].
    destruct (Qcltb q a) eqn:Hlt.
    + destruct (IH a (S i)) as (m & -> & Hin & Hmax).
      exists m. split_and!; [done|set_solver|].
      intros x [->|[->|Hx]%elem_of_cons]%elem_of_cons.
      * apply Hmax. set_solver.
      * apply Qcltb_lt in Hlt. apply Qclt_le_weak in Hlt.
        eapply Qcle_trans; [exact Hlt|]. apply Hmax. set_solver.
      * apply Hmax. set_solver.
    + destruct (IH q (S i)) as (m & -> & Hin & Hmax).
      exists m. split_and!; [done|set_solver|].
      intros x [->|Hx]%elem_of_cons.
      * apply Qcltb_ge in Hlt.
        eapply Qcle_trans; [exact Hlt|]. apply Hmax. set_solver.
      * by apply Hmax.
Qed.

Lemma reduce_from_min (s : store) (a : Qc) (i : nat) (qs : list Qc) :
  ∃ m, reduce_from Min s (VNum a) i (VNum <$> qs) = Ret (VNum m, s) ∧
       m ∈ a :: qs ∧ ∀ x, x ∈ a :: qs → (m <= x)%Qc.
Proof.
  revert a i. induction qs as [|q qs IH]; intros a i.
  - exists a. split_and!; [done|set_solver|].
    intros x ->%list_elem_of_singleton. apply Qcle_refl.
  - rewrite fmap_cons. cbn [reduce_from invoke mbind outcome_bind].
    unfold min, js_lt. cbn [to_number].
    destruct (Qcltb a q) eqn:Hlt.
    + destruct (IH a (S i)) as (m & -> & Hin & Hmin).
      exists m. split_and!; [done|set_solver|].
      intros x [->|[->|Hx]%elem_of_cons]%elem_of_cons.
      * apply Hmin. set_solver.
      * apply Qcltb_lt in Hlt. apply Qclt_le_weak in Hlt.
        eapply Qcle_trans; [|exact Hlt]. apply Hmin. set_solver.
      * apply Hmin. set_solver.
    + destruct (IH q (S i)) as (m & -> & Hin & Hmin).
      exists m. split_and!; [done|set_solver|].
      intros x [->|Hx]%elem_of_cons.
      * apply Qcltb_ge in Hlt.
        eapply Qcle_trans; [|exact Hlt]. apply Hmin. set_solver.
      * by apply Hmin.
Qed.

(** [dataship.num.max] and [dataship.num.min] on a non-empty array of
    numbers: the result is an element of the array, no element is greater
    than the maximum and none is smaller than the minimum. *)
Theorem max_min_are_extremes (q : Qc) (qs : list Qc) (s : store) :
  (∃ m, reduce (VNum <$> q :: qs) Max VUndef s = Ret (VNum m, s) ∧
        m ∈ q :: qs ∧ ∀ x, x ∈ q :: qs → (x <= m)%Qc) ∧
  (∃ m, reduce (VNum <$> q :: qs) Min VUndef s = Ret (VNum m, s) ∧
        m ∈ q :: qs ∧ ∀ x, x ∈ q :: qs → (m <= x)%Qc).
Proof.
  unfold reduce. rewrite fmap_cons. cbn [not_nullish is_undefined negb].
  split; [apply reduce_from_max|apply reduce_from_min].
Qed.

(** *** The mode is a most frequent value *)



(** *** [binarySearch] and [insert] on arbitrary arrays *)

Lemma half_between (m n : Z) :
  (0 <= m)%Z → (m <= n)%Z → (m <= Z.shiftr (n + m) 1 <= n)%Z.
Proof.
  intros Hm Hmn. rewrite Z.shiftr_div_pow2 by lia. change (2 ^ 1)%Z with 2%Z.
  pose proof (Z.div_mod (n + m) 2 ltac:(lia)).
  pose proof (Z.mod_pos_bound (n + m) 2 ltac:(lia)). lia.
Qed.

Lemma bs_loop_bounds (arr : list value) (el : value) (comparator : value -> value -> Z)
    (fuel : nat) (m n : Z) :
  Z.to_nat (n - m + 1) <= fuel →
  (0 <= m)%Z → (m <= n + 1)%Z →
  (m <= bs_loop arr el comparator m n <= n + 1)%Z.
Proof.
  revert m n. induction fuel as [|fuel IH]; intros m n Hfuel Hm Hmn;
    rewrite bs_loop_step.
  { rewrite decide_False by lia. lia. }
  destruct (decide (m <= n)%Z) as [Hle|Hgt]; cbv zeta; [|lia].
  pose proof (half_between m n Hm Hle) as Hk.
  set (k := Z.shiftr (n + m) 1) in *.
  destruct (decide (_ > 0)%Z).
  - pose proof (IH (k + 1)%Z n ltac:(lia) ltac:(lia) ltac:(lia)). lia.
  - destruct (decide (_ < 0)%Z).
    + pose proof (IH m (k - 1)%Z ltac:(lia) ltac:(lia) ltac:(lia)). lia.
    + lia.
Qed.

Lemma binarySearch_bounds (arr : list value) (el : value)
    (comparator : value -> value -> Z) :
  (0 <= binarySearch arr el comparator <= Z.of_nat (length arr))%Z.
Proof.
  unfold binarySearch.
  pose proof (bs_loop_bounds arr el comparator _ 0 (Z.of_nat (length arr) - 1)
                (le_n _) ltac:(lia) ltac:(lia)). lia.
Qed.


Lemma Qclt_irrefl (x : Qc) : ¬ (x < x)%Qc.
Proof. intros H. by apply Qclt_not_eq in H. Qed.

(** The loop of [binarySearch] on a sorted array of numbers, with the
    strict bounds it keeps: everything left of [m] is below the target and
    everything right of [n] is above it.  If the target is in the array,
    the loop returns an index that holds it. *)
Lemma bs_loop_finds (l : list Qc) (v : Qc) (fuel : nat) (m n : Z) :
  StronglySorted Qcle l →
  (Z.to_nat (n - m + 1) <= fuel) →
  (0 <= m)%Z → (m <= n + 1)%Z → (n < Z.of_nat (length l))%Z →
  (∀ j x, l !! j = Some x → (Z.of_nat j < m)%Z → (x < v)%Qc) →
  (∀ j x, l !! j = Some x → (n < Z.of_nat j)%Z → (v < x)%Qc) →
  v ∈ l →
  l !! Z.to_nat (bs_loop (VNum <$> l) (VNum v) d m n) = Some v.
Proof.
  intros Hs.
  assert (Hsort : ∀ j1 j2 x1 x2, l !! j1 = Some x1 → l !! j2 = Some x2 →
                                 j1 <= j2 → (x1 <= x2)%Qc).
  { clear -Hs. intros j1 j2 x1 x2 H1 H2 Hj.
    destruct (decide (j1 = j2)) as [->|]; [rewrite H1 in H2; injection H2 as ->; apply Qcle_refl|].
    assert (j1 < j2) as Hlt by lia. clear Hj.
    assert (j2 < length l) by (by apply lookup_lt_Some in H2).
    rewrite <- (take_drop j2 l) in Hs, H1, H2.
    rewrite lookup_app_l in H1 by (rewrite length_take; lia).
    rewrite lookup_app_r in H2 by (rewrite length_take; lia).
    eapply StronglySorted_app_1_elem_of; eauto using list_elem_of_lookup_2. }
  revert m n.
  induction fuel as [|fuel IH]; intros m n Hfuel Hm Hmn Hn Hlo Hhi Hin;
    rewrite bs_loop_step.
  { exfalso. apply list_elem_of_lookup_1 in Hin as [j Hj].
    destruct (decide (Z.of_nat j < m)%Z).
    - by eapply (Qclt_irrefl v), Hlo.
    - eapply (Qclt_irrefl v), Hhi; [done|lia]. }
  destruct (decide (m <= n)%Z) as [Hle|Hgt]; cbv zeta.
  2:{ exfalso. apply list_elem_of_lookup_1 in Hin as [j Hj].
      destruct (decide (Z.of_nat j < m)%Z).
      - by eapply (Qclt_irrefl v), Hlo.
      - eapply (Qclt_irrefl v), Hhi; [done|lia]. }
  pose proof (half_between m n Hm Hle) as Hk.
  set (k := Z.shiftr (n + m) 1) in *.
  destruct (l !! Z.to_nat k) as [y|] eqn:Hy.
  2:{ apply lookup_ge_None in Hy. lia. }
  rewrite (arr_get_nums l k y) by (done || lia).
  destruct (decide (d (VNum v) (VNum y) > 0)%Z) as [Hpos|Hnpos].
  - apply d_num_pos in Hpos.
    apply IH; try lia; [|done..].
    intros j x Hj ?. apply Qcle_lt_trans with y; [|done].
    eapply Hsort; eauto. lia.
  - destruct (decide (d (VNum v) (VNum y) < 0)%Z) as [Hneg|Hnneg].
    + apply d_num_neg in Hneg; [|done].
      apply IH; try lia; [done| |done].
      intros j x Hj ?. apply Qclt_le_trans with y; [done|].
      eapply Hsort; eauto. lia.
    + by pose proof (d_num_zero _ _ Hnpos Hnneg) as ->.
Qed.

(** [binarySearch] on a sorted array of numbers that holds the target
    returns an index at which the target stands. *)
Theorem binarySearch_finds (l : list Qc) (v : Qc) :
  Sorted Qcle l → v ∈ l →
  let i := binarySearch (VNum <$> l) (VNum v) d in
  (0 <= i < Z.of_nat (length l))%Z ∧ l !! Z.to_nat i = Some v ∧
  arr_get (VNum <$> l) i = VNum v.
Proof.
  intros Hs%Sorted_StronglySorted Hin; [|apply _]. cbv zeta.
  assert (l !! Z.to_nat (binarySearch (VNum <$> l) (VNum v) d) = Some v) as Hfound.
  { unfold binarySearch. rewrite length_fmap.
    apply (bs_loop_finds l v _ 0%Z (Z.of_nat (length l) - 1)%Z Hs (le_n _));
      try lia; [|done].
    intros j x Hj ?. apply lookup_lt_Some in Hj. lia. }
  destruct (binarySearch_bounds (VNum <$> l) (VNum v) d) as (Hlo & _).
  pose proof (lookup_lt_Some _ _ _ Hfound).
  split_and!; [done|lia|done|by apply arr_get_nums].
Qed.

(** *** Elementwise equality *)

Lemma strict_neq_false (a b : value) :
  strict_neq a b = false ↔ a = b ∧ a ≠ VNaN.
Proof.
  destruct a, b; cbn [strict_neq]; try (split; [done|intros [? ?]; congruence]).
  - rewrite bool_decide_eq_false. split.
    + intros H. split; [|done]. f_equal. by destruct (decide (q = q0)).
    + intros [[= ->] _]. auto.
  - rewrite bool_decide_eq_false. split.
    + intros H. split; [|done]. f_equal. by destruct (decide (s = s0)).
    + intros [[= ->] _]. auto.
Qed.

Lemma equal_loop_spec (a b : list value) (i todo : nat) :
  equal_loop a b i todo = true ↔
  ∀ j, i <= j < i + todo →
       arr_get a (Z.of_nat j) = arr_get b (Z.of_nat j) ∧ arr_get a (Z.of_nat j) ≠ VNaN.
Proof.
  revert i. induction todo as [|todo IH]; intros i; cbn [equal_loop].
  - split; [intros _ j ?; lia|done].
  - destruct (strict_neq _ _) eqn:Hne.
    + split; [done|]. intros H. specialize (H i ltac:(lia)).
      apply strict_neq_false in H. congruence.
    + apply strict_neq_false in Hne. rewrite IH. split.
      * intros H j Hj. destruct (decide (j = i)) as [->|]; [done|]. apply H. lia.
      * intros H j Hj. apply H. lia.
Qed.

Lemma arr_get_lookup (a : list value) (j : nat) :
  arr_get a (Z.of_nat j) = default VUndef (a !! j).
Proof. unfold arr_get. rewrite decide_True by lia. by rewrite Nat2Z.id. Qed.

(** [dataship.num.equal] answers [true] exactly on two arrays that hold
    the same values at the same places and no [NaN]: an array that holds
    [NaN] is not even equal to itself. *)
Theorem equal_iff_same_without_NaN (a b : list value) :
  equal a b = true ↔ a = b ∧ VNaN ∉ a.
Proof.
  unfold equal. destruct (decide (length a ≠ length b)) as [Hlen|Hlen].
  { split; [done|]. by intros [-> _]. }
  apply dec_stable in Hlen. rewrite equal_loop_spec. split.
  - intros H. split.
    + apply list_eq_same_length with (length a); [done..|].
      intros j x y Hj Hx Hy. destruct (H j ltac:(lia)) as [Heq _].
      rewrite !arr_get_lookup, Hx, Hy in Heq. done.
    + intros [j Hj]%list_elem_of_lookup_1.
      pose proof (lookup_lt_Some _ _ _ Hj).
      destruct (H j ltac:(lia)) as [_ Hnan].
      by rewrite arr_get_lookup, Hj in Hnan.
  - intros [<- Hnan] j Hj. split; [done|].
    rewrite arr_get_lookup. intros Heq.
    destruct (a !! j) as [x|] eqn:Hx; [|done].
    cbn in Heq. subst x. apply Hnan. by eapply list_elem_of_lookup_2.
Qed.

(** *** The index of the maximum *)

(** The state of the scan of [argmax] after the numbers [seen]. *)
Lemma argmax_loop_nums (rest seen : list Qc) (M : Qc) (a : option nat) :
  match a with
  | None => M = MIN_SAFE_INTEGER ∧ ∀ x, x ∈ seen → (x <= MIN_SAFE_INTEGER)%Qc
  | Some j => seen !! j = Some M ∧ (MIN_SAFE_INTEGER < M)%Qc ∧
              (∀ x, x ∈ seen → (x <= M)%Qc) ∧
              (∀ j' x, j' < j → seen !! j' = Some x → (x < M)%Qc)
  end →
  let all := seen ++ rest in
  match (argmax_loop (VNum <$> rest) (length seen) (VNum M) a).2 with
  | None => ∀ x, x ∈ all → (x <= MIN_SAFE_INTEGER)%Qc
  | Some j => ∃ m, all !! j = Some m ∧ (MIN_SAFE_INTEGER < m)%Qc ∧
                   (∀ x, x ∈ all → (x <= m)%Qc) ∧
                   (∀ j' x, j' < j → all !! j' = Some x → (x < m)%Qc)
  end.
Proof.
  revert seen M a. induction rest as [|q rest IH]; intros seen M a Hinv; cbv zeta.
  - rewrite app_nil_r. cbn. destruct a as [j|]; [|by destruct Hinv].
    by exists M.
  - rewrite fmap_cons. cbn [argmax_loop]. unfold js_gt, js_lt. cbn [to_number].
    replace (seen ++ q :: rest) with ((seen ++ [q]) ++ rest) by (by rewrite <- app_assoc).
    replace (S (length seen)) with (length (seen ++ [q]))
      by (rewrite length_app; cbn; lia).
    destruct (Qcltb M q) eqn:Hlt.
    + apply Qcltb_lt in Hlt. apply (IH (seen ++ [q]) q (Some (length seen))).
      split_and!.
      * by rewrite lookup_app_r, Nat.sub_diag.
      * destruct a as [j|].
        -- destruct Hinv as (_ & ? & _). by eapply Qclt_trans.
        -- destruct Hinv as (-> & _). done.
      * intros x [Hx| ->%list_elem_of_singleton]%elem_of_app; [|apply Qcle_refl].
        apply Qclt_le_weak. eapply Qcle_lt_trans; [|exact Hlt].
        destruct a as [j|]; [by apply Hinv|].
        destruct Hinv as (-> & Hle). by apply Hle.
      * intros j' x Hj' Hx. rewrite lookup_app_l in Hx by done.
        eapply Qcle_lt_trans; [|exact Hlt].
        apply list_elem_of_lookup_2 in Hx.
        destruct a as [j|]; [by apply Hinv|].
        destruct Hinv as (-> & Hle). by apply Hle.
    + apply Qcltb_ge in Hlt. apply (IH (seen ++ [q]) M a).
      destruct a as [j|].
      * destruct Hinv as (Hj & Hmin & Hmax & Hfirst).
        pose proof (lookup_lt_Some _ _ _ Hj).
        split_and!; [by rewrite lookup_app_l|done| |].
        -- intros x [Hx| ->%list_elem_of_singleton]%elem_of_app; [by apply Hmax|done].
        -- intros j' x Hj' Hx. rewrite lookup_app_l in Hx by lia. by eapply Hfirst.
      * destruct Hinv as (-> & Hle). split; [done|].
        intros x [Hx| ->%list_elem_of_singleton]%elem_of_app; [by apply Hle|done].
Qed.

(** [dataship.num.argmax] on an array of numbers returns the index of the
    first occurrence of the greatest element, when some element is above
    [Number.MIN_SAFE_INTEGER]; when none is, on the empty array for one,
    it returns [NaN]. *)
Theorem argmax_first_maximum (qs : list Qc) :
  if decide (Exists (λ x, (MIN_SAFE_INTEGER < x)%Qc) qs)
  then ∃ i m, argmax (VNum <$> qs) = VNum (num_of_nat i) ∧
              qs !! i = Some m ∧
              (∀ x, x ∈ qs → (x <= m)%Qc) ∧
              (∀ j x, j < i → qs !! j = Some x → (x < m)%Qc)
  else argmax (VNum <$> qs) = VNaN.
Proof.
  pose proof (argmax_loop_nums qs [] MIN_SAFE_INTEGER None) as H.
  cbv zeta in H. cbn [length app] in H. unfold argmax.
  destruct (argmax_loop (VNum <$> qs) 0 (VNum MIN_SAFE_INTEGER) None).2 as [i|].
  - destruct H as (m & Hi & Hmin & Hmax & Hfirst); [split; [done|set_solver]|].
    rewrite decide_True.
    + by exists i, m.
    + apply Exists_exists. exists m. split; [|done]. by eapply list_elem_of_lookup_2.
  - rewrite decide_False; [done|].
    intros (x & Hx & Hlt)%Exists_exists.
    eapply Qclt_not_le; [exact Hlt|]. apply H; [split; [done|set_solver]|done].
Qed.

(** *** More on the interval grouper *)

Lemma spec_index_mono (x y : Qc) (bs : list Qc) :
  (x <= y)%Qc → spec_index x bs <= spec_index y bs.
Proof.
  intros Hxy. induction bs as [|b bs IH].
  - done.
  - rewrite !spec_index_cons.
    destruct (Qcltb x b) eqn:Hx; [lia|].
    destruct (Qcltb y b) eqn:Hy; [|lia].
    apply Qcltb_lt in Hy. apply Qcltb_ge in Hx.
    exfalso. eapply Qclt_not_le; [exact Hy|]. by eapply Qcle_trans.
Qed.

(** The grouper [interval] builds without labels is monotone, whatever the
    order of the bounds: a row with a greater number never lands in an
    interval of smaller index. *)
Theorem interval_is_monotone (selector : arg) (bs : list Qc) (r1 r2 : row)
    (x y : Qc) :
  call_arg (resolve_field selector) r1 = Ret (VNum x) →
  call_arg (resolve_field selector) r2 = Ret (VNum y) →
  (x <= y)%Qc →
  ∃ grouper i j,
    interval selector (VNum <$> bs) None = Ret grouper ∧
    grouper r1 = Ret (VNum (num_of_nat i)) ∧
    grouper r2 = Ret (VNum (num_of_nat j)) ∧
    i <= j <= length bs.
Proof.
  intros H1 H2 Hxy. unfold interval. cbv zeta.
  exists (fun r0 : row =>
            val ← call_arg (resolve_field selector) r0;
            match interval_labeler (VNum <$> bs) None with
            | Some f => Ret (f (first_above val (VNum <$> bs) 0))
            | None => Throw TypeError
            end), (spec_index x bs), (spec_index y bs).
  split_and!.
  - by destruct (resolve_field selector) as [[]| |].
  - cbv beta. rewrite H1. cbn [mbind outcome_bind interval_labeler].
    by rewrite first_above_nums.
  - cbv beta. rewrite H2. cbn [mbind outcome_bind interval_labeler].
    by rewrite first_above_nums.
  - by apply spec_index_mono.
  - apply spec_index_first.
Qed.

Lemma first_above_incomparable (val : value) (bs : list Qc) (i : nat) :
  to_number val = None →
  first_above val (VNum <$> bs) i = i + length bs.
Proof.
  intros Hval. revert i. induction bs as [|b bs IH]; intros i.
  - cbn. lia.
  - rewrite fmap_cons. cbn [first_above length].
    assert (js_lt val (VNum b) = false) as ->.
    { unfold js_lt. rewrite Hval. by destruct val. }
    rewrite IH. lia.
Qed.

(** A row whose selected value is not a number ([undefined] for a missing
    field, [NaN], a string that does not read as a number) is below no
    bound: the grouper of [interval] puts it in the last interval, and
    with as many labels as bounds labels it [">"] followed by the last
    label. *)
Theorem interval_puts_non_numbers_last (selector : arg) (bs : list Qc)
    (labels : option (list value)) (r : row) (val : value) :
  call_arg (resolve_field selector) r = Ret val →
  to_number val = None →
  ∃ grouper,
    interval selector (VNum <$> bs) labels = Ret grouper ∧
    (labels = None → grouper r = Ret (VNum (num_of_nat (length bs)))) ∧
    (∀ ls lab, labels = Some ls → length ls = length bs → last ls = Some lab →
               grouper r = Ret (VStr (">" +:+ to_string lab))).
Proof.
  intros Hsel Hval. unfold interval. cbv zeta.
  exists (fun r0 : row =>
            val ← call_arg (resolve_field selector) r0;
            match interval_labeler (VNum <$> bs) labels with
            | Some f => Ret (f (first_above val (VNum <$> bs) 0))
            | None => Throw TypeError
            end).
  split_and!.
  - by destruct (resolve_field selector) as [[]| |].
  - intros ->. cbv beta. rewrite Hsel. cbn [mbind outcome_bind interval_labeler].
    by rewrite first_above_incomparable.
  - intros ls lab -> Hlen Hlast. cbv beta. rewrite Hsel.
    cbn [mbind outcome_bind interval_labeler].
    rewrite first_above_incomparable by done. rewrite length_fmap, Hlen.
    rewrite Nat.ltb_irrefl.
    assert ((length bs + 1 <=? length bs) = false) as -> by (apply Nat.leb_gt; lia).
    rewrite Nat.eqb_refl, Nat.add_0_l, Nat.ltb_irrefl.
    do 2 f_equal. unfold arr_get.
    rewrite last_lookup in Hlast.
    destruct ls as [|l0 ls']; [done|]. simpl in *.
    rewrite decide_True by lia.
    replace (Z.to_nat (Z.of_nat (length bs) - 1)) with (length ls') by lia.
    by rewrite Hlast.
Qed.

(** *** Sums and means by group *)



(** *** One entry per group, under any reducer *)



(** *** Frames from mappings, and columns added to frames *)




(** What [dataship.frame.widen] does with values it cannot add: arrays of
    different lengths raise an error; an array whose first value is not a
    number (strings, say) is dropped without a word, the dataset coming
    back as it was. *)
Lemma widen_drops_non_numbers (dataset : list row) (values : list value)
    (identifier : value) :
  (length dataset ≠ length values →
   widen dataset values identifier = Throw (Error "datasets must be of equal lengths")) ∧
  (length dataset = length values → is_number (arr_get values 0) = false →
   widen dataset values identifier = Ret dataset).
Proof.
  unfold widen. split.
  - intros Hne. by rewrite decide_True.
  - intros Heq Hnum. rewrite decide_False by (by intros ?).
    destruct dataset; [done|]. by rewrite Hnum.
Qed.

(** *** [reduce], [map] and [filter] on objects *)

Lemma reduce_keys_some (data : obj) (r : reducer) (initial : value)
    (keys : list string) (agg : value) (i : nat) (s : store) :
  reduce_keys data r initial keys (Some agg) i s
  = '(v, s') ← reduce_from r s agg i (obj_get data <$> keys); Ret (Some v, s').
Proof.
  revert agg i s. induction keys as [|key keys IH]; intros agg i s; [done|].
  rewrite fmap_cons. cbn [reduce_keys reduce_from].
  destruct (invoke r s agg (obj_get data key) i) as [[a s1]|]; [|done].
  cbn [mbind outcome_bind]. apply IH.
Qed.

(** [reduce] on an object with at least one property is [reduce] on the
    array of its values, in enumeration order, with the same reducer and
    initial value.  On an object without properties it returns [null],
    also when an initial value is given (the array branch returns the
    initial value, and raises [TypeError] when there is none). *)
Theorem reduce_on_objects (data : obj) (r : reducer) (initial : value) (s : store) :
  reduce_obj data r initial s
  = match own_keys data with
    | [] => Ret (None, s)
    | _ :: _ => '(v, s') ← reduce (objectValues data) r initial s; Ret (Some v, s')
    end.
Proof.
  unfold reduce_obj, objectValues, reduce.
  destruct (own_keys data) as [|key keys]; [done|].
  rewrite fmap_cons. cbn [reduce_keys reduce_from].
  destruct (not_nullish initial).
  - destruct (invoke r s initial (obj_get data key) 0) as [[a s1]|]; [|done].
    cbn [mbind outcome_bind]. apply reduce_keys_some.
  - cbn [mbind outcome_bind]. apply reduce_keys_some.
Qed.




(** *** [range] *)

Lemma num_of_Z_le (a b : Z) : (a <= b)%Z → (num_of_Z a <= num_of_Z b)%Qc.
Proof.
  intros H. unfold Qcle, num_of_Z. cbn [this Q2Qc]. rewrite !Qred_correct.
  by rewrite <- Zle_Qle.
Qed.

Lemma ceil_ge (q : Qc) : (q <= num_of_Z (ceil q))%Qc.
Proof.
  unfold Qcle, num_of_Z, ceil. cbn [this Q2Qc]. rewrite Qred_correct.
  apply Qle_ceiling.
Qed.

Lemma ceil_lt (q : Qc) : (num_of_Z (ceil q - 1) < q)%Qc.
Proof.
  unfold Qclt, num_of_Z, ceil. cbn [this Q2Qc]. rewrite Qred_correct.
  apply Qceiling_lt.
Qed.

(** The terms of [range] with a positive step. *)
Lemma range_terms (start stop step : Qc) (n : nat) :
  (Q2Qc 0 < step)%Qc →
  let q := ((stop - start) / step)%Qc in
  let x := (start + num_of_nat n * step)%Qc in
  (start <= x)%Qc ∧
  ((Z.of_nat n < ceil q)%Z → (x < stop)%Qc) ∧
  ((ceil q <= Z.of_nat n)%Z → (stop <= x)%Qc).
Proof.
  intros Hstep q x.
  assert (step ≠ Q2Qc 0) as Hne by (intros ->; by apply Qclt_not_eq in Hstep).
  assert (q * step = stop - start)%Qc as Hq by (subst q; by field).
  split_and!.
  - apply (proj2 (Qcle_minus_iff _ _)). replace (x + - start)%Qc with (num_of_nat n * step)%Qc
      by (subst x; ring).
    rewrite <- (Qcmult_0_l step). apply Qcmult_le_compat_r; [|by apply Qclt_le_weak].
    apply (num_of_Z_le 0). lia.
  - intros Hn. apply (proj2 (Qclt_minus_iff _ _)).
    replace (stop + - x)%Qc with (q * step + - (num_of_nat n * step))%Qc
      by (rewrite Hq; subst x; ring).
    apply (proj1 (Qclt_minus_iff _ _)), Qcmult_lt_compat_r; [done|].
    eapply Qcle_lt_trans; [|apply ceil_lt]. apply num_of_Z_le. lia.
  - intros Hn. apply (proj2 (Qcle_minus_iff _ _)).
    replace (x + - stop)%Qc with (num_of_nat n * step + - (q * step))%Qc
      by (rewrite Hq; subst x; ring).
    apply (proj1 (Qcle_minus_iff _ _)), Qcmult_le_compat_r; [|by apply Qclt_le_weak].
    eapply Qcle_trans; [apply ceil_ge|]. by apply num_of_Z_le.
Qed.

(** [range(start, stop, step)] with [start] below [stop] and a positive
    step: the result is the arithmetic progression [start], [start +
    step], ... in the half-open interval from [start] to [stop]; it is not
    empty, every term is below [stop], and the term that would come next is
    not.  (The count must be a valid array length.) *)
Theorem range_is_progression (start stop step : Qc) :
  (start < stop)%Qc → (Q2Qc 0 < step)%Qc →
  (ceil ((stop - start) / step) < 2 ^ 32)%Z →
  ∃ l, range start (Some (stop, Some step)) = Some l ∧
       l ≠ [] ∧
       (∀ n x, l !! n = Some x →
               x = (start + num_of_nat n * step)%Qc ∧ (start <= x)%Qc ∧ (x < stop)%Qc) ∧
       (stop <= start + num_of_nat (length l) * step)%Qc.
Proof.
  intros Hlt Hstep Hmax. unfold range. cbn [default from_option]. unfold id.
  apply Qcltb_lt in Hlt as Hb. rewrite Hb.
  assert (step ≠ Q2Qc 0) as Hne by (intros ->; by apply Qclt_not_eq in Hstep).
  rewrite decide_False by done. cbv zeta.
  set (q := ((stop - start) / step)%Qc) in *.
  assert (0 < ceil q)%Z as Hpos.
  { destruct (decide (0 < ceil q)%Z) as [|Hn]; [done|]. exfalso.
    destruct (range_terms start stop step 0 Hstep) as (_ & _ & Hge).
    fold q in Hge. specialize (Hge ltac:(lia)).
    eapply Qclt_not_le; [exact Hlt|].
    replace (start + num_of_nat 0 * step)%Qc with start in Hge; [done|].
    change (num_of_nat 0) with (Q2Qc 0). ring. }
  rewrite decide_False by lia.
  eexists. split; [reflexivity|]. split_and!.
  - destruct (Z.to_nat (ceil q)) eqn:HN; [lia|done].
  - intros n x Hx. rewrite list_lookup_fmap in Hx.
    destruct (seq 0 (Z.to_nat (ceil q)) !! n) as [m|] eqn:Hm; [|done].
    apply lookup_seq in Hm as [-> Hn]. cbn in Hx. injection Hx as <-.
    destruct (range_terms start stop step n Hstep) as (Hlo & Hhi & _).
    split_and!; [done|done|]. apply Hhi. fold q. lia.
  - rewrite length_fmap, length_seq.
    destruct (range_terms start stop step (Z.to_nat (ceil q)) Hstep) as (_ & _ & Hge).
    apply Hge. fold q. lia.
Qed.

(** What [range] does outside that case: with [stop] not above [start]
    the result is empty, whatever the step, so a negative step never
    counts down; with [start] below [stop], a step of zero raises
    [RangeError], and so does a negative step of size at most [stop -
    start]. *)
Theorem range_edge_cases (start stop step : Qc) :
  ((stop <= start)%Qc → range start (Some (stop, Some step)) = Some []) ∧
  ((start < stop)%Qc → step = Q2Qc 0 → range start (Some (stop, Some step)) = None) ∧
  ((start < stop)%Qc → (step < Q2Qc 0)%Qc → (stop - start >= - step)%Qc →
   range start (Some (stop, Some step)) = None).
Proof.
  unfold range. cbn [default from_option]. unfold id. split_and!.
  - intros Hle. apply Qcltb_ge in Hle. by rewrite Hle.
  - intros Hlt ->. apply Qcltb_lt in Hlt. rewrite Hlt. by rewrite decide_True.
  - intros Hlt Hneg Hsize. apply Qcltb_lt in Hlt as Hb. rewrite Hb.
    assert (step ≠ Q2Qc 0) as Hne by (intros ->; by apply Qclt_not_eq in Hneg).
    rewrite decide_False by done. cbv zeta.
    set (q := ((stop - start) / step)%Qc).
    assert (q * step = stop - start)%Qc as Hq by (subst q; by field).
    assert (q <= num_of_Z (-1))%Qc as Hq1.
    { apply (proj2 (Qcle_minus_iff _ _)).
      apply (Qcmult_lt_0_le_reg_r _ _ (- step)%Qc).
      { apply (proj1 (Qclt_minus_iff _ _)) in Hneg. by rewrite Qcplus_0_l in Hneg. }
      rewrite Qcmult_0_l.
      replace ((num_of_Z (-1) + - q) * - step)%Qc with (q * step + - (- step))%Qc
        by (change (num_of_Z (-1)) with (- (1))%Qc; ring).
      apply (proj1 (Qcle_minus_iff _ _)). by rewrite Hq. }
    assert (ceil q <= -1)%Z as Hc.
    { unfold ceil. rewrite <- (Qceiling_Z (-1)). apply Qceiling_resp_le.
      unfold Qcle, num_of_Z in Hq1. cbn [this Q2Qc] in Hq1.
      by rewrite Qred_correct in Hq1. }
    rewrite decide_True by lia. done.
Qed.

(** *** [median] in [groupby] when the dataset is one group *)





(** *** [range] on whole numbers *)

Lemma ceil_num_of_Z (z : Z) (q : Qc) : q = num_of_Z z → ceil q = z.
Proof.
  intros ->. unfold ceil, num_of_Z. cbn [this Q2Qc].
  rewrite (Qceiling_comp _ (inject_Z z)) by apply Qred_correct.
  apply Qceiling_Z.
Qed.

(** [range(n)] for a whole number [n] counts from [0] to [n - 1]. *)
Theorem range_counts_from_zero (n : nat) :
  (Z.of_nat n < 2 ^ 32)%Z →
  range (num_of_nat n) None = Some (num_of_nat <$> seq 0 n).
Proof.
  intros Hmax. unfold range. cbn [default from_option]. unfold id.
  destruct (Qcltb (Q2Qc 0) (num_of_nat n)) eqn:Hlt.
  - rewrite decide_False by (by vm_compute).
    assert (ceil ((num_of_nat n - Q2Qc 0) / num_of_Z 1) = Z.of_nat n) as Hceil.
    { apply ceil_num_of_Z. unfold num_of_nat. change (num_of_Z 1) with 1%Qc.
      field. apply Q_apart_0_1. }
    cbv zeta. rewrite Hceil, decide_False by lia. rewrite Nat2Z.id.
    f_equal. apply list_fmap_ext. intros i k _.
    change (num_of_Z 1) with 1%Qc. ring.
  - apply Qcltb_ge in Hlt.
    destruct n as [|n]; [done|]. exfalso.
    apply (Qcle_not_lt _ _ Hlt).
    apply Qcnot_le_lt. intros Hle.
    apply (num_of_nat_nonzero (S n)); [lia|].
    apply Qcle_antisym; [done|]. apply (num_of_Z_le 0). lia.
Qed.

End Engine.

(** * The claims on concrete data *)

(** C1.  What the code does on two groups whose rows alternate, under
    [median]: [dataship.reduce.median] keeps its array in
    [dataship.reduce.mode.state], which [groupby] does not swap for it, so
    the two groups share one array.  Group A receives 5, 1, 3, whose
    median alone is 3; after group B's 10 and 20 came in between, the
    third value of A is inserted into B's array and A is bound to 10. *)
Theorem median_state_is_shared :
  ∃ res s' alone s'',
    groupby show_number read_number (fresh_store interleaved)
      (AVal (VStr "k")) (AVal (VStr "v")) (Some Median) VUndef = Ret (res, s') ∧
    reduce show_number read_number [VInt 5; VInt 1; VInt 3] Median VUndef
      (fresh_store []) = Ret (alone, s'') ∧
    to_string show_number (obj_get res "A") = "10" ∧
    to_string show_number alone = "3" ∧
    s_mode_state s' = AuxMedian [VInt 3; VInt 10; VInt 20] ∧
    s_reducer_state s' = AuxEmpty.
Proof.
  eexists _, _, _, _.
  split; [vm_compute; reflexivity|].
  split; [vm_compute; reflexivity|].
  split_and!; vm_compute; reflexivity.
Qed.

(** The same rows under [mode], whose state is the one [groupby] swaps:
    each group is bound to the mode of its own values. *)
Example mode_state_is_swapped :
  ∃ res s',
    groupby show_number read_number
      (fresh_store [reading "A" 1; reading "B" 7; reading "A" 3; reading "B" 7;
                    reading "A" 3]) (AVal (VStr "k")) (AVal (VStr "v"))
      (Some Mode) VUndef = Ret (res, s') ∧
    to_string show_number (obj_get res "A") = "3" ∧
    to_string show_number (obj_get res "B") = "7".
Proof.
  eexists _, _. split; [vm_compute; reflexivity|].
  split; vm_compute; reflexivity.
Qed.



(** The number [5] as grouper and as selector. *)
Lemma groupby_checks_no_argument_witness :
  is_string_arg (AVal (VInt 5)) = false ∧ is_function (AVal (VInt 5)) = false ∧
  groupby show_number read_number (fresh_store []) (AVal (VInt 5)) (AVal VUndef)
    None VUndef = Ret ([], fresh_store []) ∧
  groupby show_number read_number (fresh_store movies) (AVal (VInt 5)) (AVal VUndef)
    None VUndef = Throw TypeError ∧
  groupby show_number read_number (fresh_store movies) (AVal (VStr "Year")) (AVal (VInt 5))
    None VUndef = Throw TypeError ∧
  column movies (AVal (VInt 5)) = Throw (Error "selector must be a string or function").
Proof.
  split; [reflexivity|]. split; [reflexivity|].
  destruct (groupby_checks_no_argument show_number read_number (fresh_store [])
              (AVal (VInt 5)) (AVal VUndef) (field_fn "Year") None VUndef
              eq_refl eq_refl) as ((Hempty & _) & _ & _).
  destruct (groupby_checks_no_argument show_number read_number (fresh_store movies)
              (AVal (VInt 5)) (AVal VUndef) (field_fn "Year") None VUndef
              eq_refl eq_refl) as ((_ & Hrows) & _ & Hcolumn).
  destruct (groupby_checks_no_argument show_number read_number (fresh_store movies)
              (AVal (VInt 5)) (AVal (VStr "Year")) (field_fn "Year") None VUndef
              eq_refl eq_refl) as (_ & Hselector & _).
  split_and!.
  - exact (Hempty eq_refl).
  - apply Hrows. discriminate.
  - apply (Hselector eq_refl); [reflexivity|discriminate].
  - exact Hcolumn.
Defined.



(** Inserting 4 into [1, 3, 5]. *)
Lemma insert_sortedness_witness :
  Sorted Qcle [num_of_Z 1; num_of_Z 3; num_of_Z 5] ∧
  ∃ l', insert read_number (VNum <$> [num_of_Z 1; num_of_Z 3; num_of_Z 5])
          (VNum (num_of_Z 4)) = VNum <$> l' ∧
        Sorted Qcle l' ∧ l' ≡ₚ num_of_Z 4 :: [num_of_Z 1; num_of_Z 3; num_of_Z 5].
Proof.
  assert (H : Sorted Qcle [num_of_Z 1; num_of_Z 3; num_of_Z 5]).
  { repeat constructor; vm_compute; discriminate. }
  split; [exact H|].
  exact (proj1 (proj2 (proj2 (proj2 (proj2 (proj2
           (insert_sortedness read_number _ (num_of_Z 4) H))))))).
Defined.

(** The values 5, 1, 3 fed as 3, 5, 1. *)
Lemma median_order_independence_witness :
  [num_of_Z 5; num_of_Z 1; num_of_Z 3] ≠ [] ∧
  [num_of_Z 1; num_of_Z 3; num_of_Z 5] ≡ₚ [num_of_Z 5; num_of_Z 1; num_of_Z 3] ∧
  Sorted Qcle [num_of_Z 1; num_of_Z 3; num_of_Z 5] ∧
  [num_of_Z 3; num_of_Z 5; num_of_Z 1] ≡ₚ [num_of_Z 5; num_of_Z 1; num_of_Z 3] ∧
  ∃ s', reduce show_number read_number
          (VNum <$> [num_of_Z 3; num_of_Z 5; num_of_Z 1]) Median VUndef (fresh_store [])
        = Ret (VNum (spec_median [num_of_Z 1; num_of_Z 3; num_of_Z 5]), s').
Proof.
  assert (H1 : [num_of_Z 5; num_of_Z 1; num_of_Z 3] ≠ []) by discriminate.
  assert (H2 : [num_of_Z 1; num_of_Z 3; num_of_Z 5]
               ≡ₚ [num_of_Z 5; num_of_Z 1; num_of_Z 3]).
  { symmetry. apply (Permutation_cons_append [num_of_Z 1; num_of_Z 3]). }
  assert (H3 : Sorted Qcle [num_of_Z 1; num_of_Z 3; num_of_Z 5]).
  { repeat constructor; vm_compute; discriminate. }
  assert (H4 : [num_of_Z 3; num_of_Z 5; num_of_Z 1]
               ≡ₚ [num_of_Z 5; num_of_Z 1; num_of_Z 3]).
  { apply (Permutation_cons_append [num_of_Z 5; num_of_Z 1]). }
  split_and!; [exact H1|exact H2|exact H3|exact H4|].
  exact (median_order_independence show_number read_number _ _ _ (fresh_store [])
           H1 H2 H3 H4).
Defined.


(** The cutoff [[8]] on the rating of the first movie. *)
Lemma interval_binning_witness :
  call_arg (resolve_field (AVal (VStr "Rating"))) fight_club
  = Ret (VNum (Q2Qc (89 # 10))) ∧
  ∃ grouper,
    interval show_number read_number (AVal (VStr "Rating")) [VInt 8] None = Ret grouper ∧
    grouper fight_club = Ret (VInt 1).
Proof.
  assert (H : call_arg (resolve_field (AVal (VStr "Rating"))) fight_club
              = Ret (VNum (Q2Qc (89 # 10)))) by (vm_compute; reflexivity).
  split; [exact H|].
  destruct (interval_binning show_number read_number (AVal (VStr "Rating"))
              [num_of_Z 8] None _ _ H) as (grouper & Hint & _ & Hidx & _).
  exists grouper. split; [exact Hint|]. exact (Hidx I).
Defined.


(** * Further properties on concrete data *)



(** The mean of 1, 2, 3. *)
Lemma mean_is_arithmetic_mean_witness :
  [num_of_Z 1; num_of_Z 2; num_of_Z 3] ≠ [] ∧
  reduce show_number read_number (VNum <$> [num_of_Z 1; num_of_Z 2; num_of_Z 3]) Mean
    VUndef (fresh_store [])
  = Ret (VNum (arith_mean [num_of_Z 1; num_of_Z 2; num_of_Z 3]), fresh_store []).
Proof.
  assert (H : [num_of_Z 1; num_of_Z 2; num_of_Z 3] ≠ []) by discriminate.
  split; [exact H|].
  exact (mean_is_arithmetic_mean show_number read_number _ None (fresh_store []) H).
Defined.

(** Looking 3 up in [1, 3, 5]. *)
Lemma binarySearch_finds_witness :
  Sorted Qcle [num_of_Z 1; num_of_Z 3; num_of_Z 5] ∧
  num_of_Z 3 ∈ [num_of_Z 1; num_of_Z 3; num_of_Z 5] ∧
  [num_of_Z 1; num_of_Z 3; num_of_Z 5]
    !! Z.to_nat (binarySearch (VNum <$> [num_of_Z 1; num_of_Z 3; num_of_Z 5])
                   (VNum (num_of_Z 3)) (d read_number))
  = Some (num_of_Z 3).
Proof.
  assert (H1 : Sorted Qcle [num_of_Z 1; num_of_Z 3; num_of_Z 5]).
  { repeat constructor; vm_compute; discriminate. }
  assert (H2 : num_of_Z 3 ∈ [num_of_Z 1; num_of_Z 3; num_of_Z 5]).
  { apply elem_of_cons. right. apply elem_of_cons. by left. }
  split_and!; [exact H1|exact H2|].
  exact (proj1 (proj2 (binarySearch_finds read_number _ _ H1 H2))).
Defined.

(** A rating of 7.6 and one of 8.9 against the cutoff [[8]]. *)
Lemma interval_is_monotone_witness :
  call_arg (resolve_field (AVal (VStr "Rating"))) stranger_than_fiction
  = Ret (VNum (Q2Qc (76 # 10))) ∧
  call_arg (resolve_field (AVal (VStr "Rating"))) fight_club
  = Ret (VNum (Q2Qc (89 # 10))) ∧
  (Q2Qc (76 # 10) <= Q2Qc (89 # 10))%Qc ∧
  ∃ grouper i j,
    interval show_number read_number (AVal (VStr "Rating")) (VNum <$> [num_of_Z 8]) None
    = Ret grouper ∧
    grouper stranger_than_fiction = Ret (VNum (num_of_nat i)) ∧
    grouper fight_club = Ret (VNum (num_of_nat j)) ∧
    i <= j <= length [num_of_Z 8].
Proof.
  assert (H1 : call_arg (resolve_field (AVal (VStr "Rating"))) stranger_than_fiction
               = Ret (VNum (Q2Qc (76 # 10)))) by (vm_compute; reflexivity).
  assert (H2 : call_arg (resolve_field (AVal (VStr "Rating"))) fight_club
               = Ret (VNum (Q2Qc (89 # 10)))) by (vm_compute; reflexivity).
  assert (H3 : (Q2Qc (76 # 10) <= Q2Qc (89 # 10))%Qc) by (vm_compute; discriminate).
  split_and!; [exact H1|exact H2|exact H3|].
  exact (interval_is_monotone show_number read_number (AVal (VStr "Rating"))
           [num_of_Z 8] _ _ _ _ H1 H2 H3).
Defined.

(** The movies have no budget: they all land in the last interval. *)
Lemma interval_puts_non_numbers_last_witness :
  call_arg (resolve_field (AVal (VStr "Budget"))) fight_club = Ret VUndef ∧
  to_number read_number VUndef = None ∧
  ∃ grouper,
    interval show_number read_number (AVal (VStr "Budget")) (VNum <$> [num_of_Z 8]) None
    = Ret grouper ∧
    grouper fight_club = Ret (VNum (num_of_nat 1)).
Proof.
  assert (H1 : call_arg (resolve_field (AVal (VStr "Budget"))) fight_club = Ret VUndef)
    by (vm_compute; reflexivity).
  split_and!; [exact H1|reflexivity|].
  destruct (interval_puts_non_numbers_last show_number read_number
              (AVal (VStr "Budget")) [num_of_Z 8] None _ _ H1 eq_refl)
    as (grouper & Hint & Hlast & _).
  exists grouper. split; [exact Hint|]. exact (Hlast eq_refl).
Defined.





(** [range(0, 10, 3)] is [[0, 3, 6, 9]]. *)
Lemma range_is_progression_witness :
  (num_of_Z 0 < num_of_Z 10)%Qc ∧ (Q2Qc 0 < num_of_Z 3)%Qc ∧
  (ceil ((num_of_Z 10 - num_of_Z 0) / num_of_Z 3) < 2 ^ 32)%Z ∧
  ∃ l, range (num_of_Z 0) (Some (num_of_Z 10, Some (num_of_Z 3))) = Some l ∧
       l ≠ [] ∧
       (num_of_Z 10 <= num_of_Z 0 + num_of_nat (length l) * num_of_Z 3)%Qc.
Proof.
  assert (H1 : (num_of_Z 0 < num_of_Z 10)%Qc) by (vm_compute; reflexivity).
  assert (H2 : (Q2Qc 0 < num_of_Z 3)%Qc) by (vm_compute; reflexivity).
  assert (H3 : (ceil ((num_of_Z 10 - num_of_Z 0) / num_of_Z 3) < 2 ^ 32)%Z)
    by (vm_compute; reflexivity).
  split_and!; [exact H1|exact H2|exact H3|].
  destruct (range_is_progression (num_of_Z 0) (num_of_Z 10) (num_of_Z 3) H1 H2 H3)
    as (l & Hrun & Hne & _ & Hnext).
  exists l. split_and!; [exact Hrun|exact Hne|exact Hnext].
Defined.

(** [range(10, 0, -1)] is empty and [range(0, 10, -1)] raises. *)
Lemma range_edge_cases_witness :
  (num_of_Z 0 <= num_of_Z 10)%Qc ∧
  (num_of_Z 0 < num_of_Z 10)%Qc ∧ (num_of_Z (-1) < Q2Qc 0)%Qc ∧
  (num_of_Z 10 - num_of_Z 0 >= - num_of_Z (-1))%Qc ∧
  range (num_of_Z 10) (Some (num_of_Z 0, Some (num_of_Z (-1)))) = Some [] ∧
  range (num_of_Z 0) (Some (num_of_Z 10, Some (num_of_Z (-1)))) = None.
Proof.
  assert (H0 : (num_of_Z 0 <= num_of_Z 10)%Qc) by (vm_compute; discriminate).
  assert (H1 : (num_of_Z 0 < num_of_Z 10)%Qc) by (vm_compute; reflexivity).
  assert (H2 : (num_of_Z (-1) < Q2Qc 0)%Qc) by (vm_compute; reflexivity).
  assert (H3 : (num_of_Z 10 - num_of_Z 0 >= - num_of_Z (-1))%Qc)
    by (vm_compute; discriminate).
  split_and!; [exact H0|exact H1|exact H2|exact H3| |].
  - exact (proj1 (range_edge_cases (num_of_Z 10) (num_of_Z 0) (num_of_Z (-1))) H0).
  - exact (proj2 (proj2 (range_edge_cases (num_of_Z 0) (num_of_Z 10) (num_of_Z (-1))))
             H1 H2 H3).
Defined.


(** [range(5)] is [[0, 1, 2, 3, 4]]. *)
Lemma range_counts_from_zero_witness :
  (Z.of_nat 5 < 2 ^ 32)%Z ∧
  range (num_of_nat 5) None = Some (num_of_nat <$> seq 0 5).
Proof.
  assert (H : (Z.of_nat 5 < 2 ^ 32)%Z) by (vm_compute; reflexivity).
  split; [exact H|]. exact (range_counts_from_zero 5 H).
Defined.
